(** * Deferred blocks of the Angular template compiler

    A shallow embedding of
    [packages/compiler/src/render3/r3_deferred_blocks.ts] and the
    properties of its connected-block classifier, its three sub-parsers,
    its trigger dispatcher and its entry point [createDeferredBlock]. *)

From Stdlib Require Import NArith ZArith Ascii String.
From stdpp Require Import base option list gmap.

Local Open Scope string_scope.
Local Open Scope list_scope.

(** ** JavaScript strings

    A JavaScript string is a sequence of UTF-16 code units.  The code only
    compares strings, concatenates them, slices them and tests them against
    regular expressions, so a list of code units is all that is needed. *)

Abbreviation jsstring := (list N).

(** The code units of an ASCII literal of the source. *)
Fixpoint str (s : String.string) : jsstring :=
  match s with
  | EmptyString => []
  | String a rest => N_of_ascii a :: str rest
  end.

(** The double quote, U+0022, which the messages of the source contain. *)
Definition dquote : jsstring := [34%N].

(** [s.slice(start)]: a negative [start] counts from the end of the string,
    and the result is clamped to the string. *)
Definition slice (s : jsstring) (start : Z) : jsstring :=
  let len := Z.of_nat (length s) in
  let from := if (start <? 0)%Z then Z.max (len + start) 0 else Z.min start len in
  drop (Z.to_nat from) s.

(** ** Regular expressions

    The fragment of the regular expressions of JavaScript that the six
    patterns of the source are written in: characters, the class [\s],
    concatenation and [+].  [Void] and [Alt] only arise as derivatives. *)

Inductive regex : Type :=
  | Void
  | Eps
  | Chr (c : N)
  | Space
  | Cat (r1 r2 : regex)
  | Alt (r1 r2 : regex)
  | Star (r : regex).

Definition Plus (r : regex) : regex := Cat r (Star r).

(** The word [w], character by character. *)
Fixpoint word (w : jsstring) : regex :=
  match w with
  | [] => Eps
  | c :: rest => Cat (Chr c) (word rest)
  end.

(** The class [\s] of ECMAScript: WhiteSpace and LineTerminator. *)
Definition is_whitespace (c : N) : bool :=
  ((9 <=? c) && (c <=? 13)                (* TAB LF VT FF CR *)
   || (c =? 32) || (c =? 160)             (* SP NBSP *)
   || (c =? 5760)                         (* U+1680 *)
   || ((8192 <=? c) && (c <=? 8202))      (* U+2000 .. U+200A *)
   || (c =? 8232) || (c =? 8233)          (* U+2028 U+2029 *)
   || (c =? 8239) || (c =? 8287)          (* U+202F U+205F *)
   || (c =? 12288) || (c =? 65279))%N.    (* U+3000 U+FEFF *)

Fixpoint nullable (r : regex) : bool :=
  match r with
  | Void => false
  | Eps => true
  | Chr _ => false
  | Space => false
  | Cat r1 r2 => nullable r1 && nullable r2
  | Alt r1 r2 => nullable r1 || nullable r2
  | Star _ => true
  end.

(** Brzozowski derivative of [r] by the code unit [c]. *)
Fixpoint deriv (c : N) (r : regex) : regex :=
  match r with
  | Void => Void
  | Eps => Void
  | Chr d => if (c =? d)%N then Eps else Void
  | Space => if is_whitespace c then Eps else Void
  | Cat r1 r2 =>
      if nullable r1 then Alt (Cat (deriv c r1) r2) (deriv c r2)
      else Cat (deriv c r1) r2
  | Alt r1 r2 => Alt (deriv c r1) (deriv c r2)
  | Star r1 => Cat (deriv c r1) (Star r1)
  end.

(** [/^r/.test(s)]: the pattern is anchored at the start of [s] and open at
    its end, so the test succeeds when some prefix of [s] matches [r]. *)
Fixpoint test (r : regex) (s : jsstring) : bool :=
  nullable r ||
  match s with
  | [] => false
  | c :: rest => test (deriv c r) rest
  end.

(** The language of a regular expression, as the reference the matcher is
    checked against. *)
Inductive matches : regex -> jsstring -> Prop :=
  | m_eps : matches Eps []
  | m_chr c : matches (Chr c) [c]
  | m_space c : is_whitespace c = true -> matches Space [c]
  | m_cat r1 r2 s1 s2 :
      matches r1 s1 -> matches r2 s2 -> matches (Cat r1 r2) (s1 ++ s2)
  | m_alt_l r1 r2 s : matches r1 s -> matches (Alt r1 r2) s
  | m_alt_r r1 r2 s : matches r2 s -> matches (Alt r1 r2) s
  | m_star_nil r : matches (Star r) []
  | m_star_cons r s1 s2 :
      matches r s1 -> matches (Star r) s2 -> matches (Star r) (s1 ++ s2).

(** ** The patterns of the source *)

(** [/^prefetch\s+when\s/] *)
Definition PREFETCH_WHEN_PATTERN : regex :=
  Cat (word (str "prefetch")) (Cat (Plus Space) (Cat (word (str "when")) Space)).

(** [/^prefetch\s+on\s/] *)
Definition PREFETCH_ON_PATTERN : regex :=
  Cat (word (str "prefetch")) (Cat (Plus Space) (Cat (word (str "on")) Space)).

(** [/^minimum\s/] *)
Definition MINIMUM_PARAMETER_PATTERN : regex := Cat (word (str "minimum")) Space.

(** [/^after\s/] *)
Definition AFTER_PARAMETER_PATTERN : regex := Cat (word (str "after")) Space.

(** [/^when\s/] *)
Definition WHEN_PARAMETER_PATTERN : regex := Cat (word (str "when")) Space.

(** [/^on\s/] *)
Definition ON_PARAMETER_PATTERN : regex := Cat (word (str "on")) Space.

(** ** Completions

    A call of the source either returns a value or throws.  What is thrown
    is an [Error], as in every [throw] of the source, and the only thing
    the source reads from it is its [message]. *)

Inductive Completion (A : Type) : Type :=
  | Normal (a : A)
  | Throw (message : jsstring).
Arguments Normal {A} a.
Arguments Throw {A} message.

#[global] Instance Completion_ret : MRet Completion := @Normal.

#[global] Instance Completion_bind : MBind Completion :=
  fun A B (k : A -> Completion B) (c : Completion A) =>
    match c with
    | Normal a => k a
    | Throw m => Throw m
    end.

(** ** The syntax trees

    [html] holds the input of the parser (ml_parser/ast), [t] its output
    (render3/r3_ast).  Source spans, the child nodes and the visited
    children are never inspected by the code: they are type parameters.
    A [number] of the source is only stored and compared to [null] here;
    it is an integer of [Z]. *)

Module html.

Record BlockParameter (Span : Type) : Type := {
  expression : jsstring;
  sourceSpan : Span
}.
Arguments expression {Span} _.
Arguments sourceSpan {Span} _.

Record Block (Span Node : Type) : Type := {
  name : jsstring;
  parameters : list (BlockParameter Span);
  children : list Node;
  blockSourceSpan : Span;
  startSourceSpan : Span;
  endSourceSpan : Span
}.
Arguments name {Span Node} _.
Arguments parameters {Span Node} _.
Arguments children {Span Node} _.
Arguments blockSourceSpan {Span Node} _.
Arguments startSourceSpan {Span Node} _.
Arguments endSourceSpan {Span Node} _.

End html.

(** [new ParseError(span, msg)] of parse_util. *)
Record ParseError (Span : Type) : Type := {
  span : Span;
  msg : jsstring
}.
Arguments Build_ParseError {Span} _ _.
Arguments span {Span} _.
Arguments msg {Span} _.

Module t.

Record DeferredBlockPlaceholder (Span R3Node : Type) : Type := {
  placeholder_children : list R3Node;
  placeholder_minimumTime : option Z;
  placeholder_sourceSpan : Span;
  placeholder_startSourceSpan : Span;
  placeholder_endSourceSpan : Span
}.
Arguments Build_DeferredBlockPlaceholder {Span R3Node} _ _ _ _ _.
Arguments placeholder_children {Span R3Node} _.
Arguments placeholder_minimumTime {Span R3Node} _.
Arguments placeholder_sourceSpan {Span R3Node} _.
Arguments placeholder_startSourceSpan {Span R3Node} _.
Arguments placeholder_endSourceSpan {Span R3Node} _.

Record DeferredBlockLoading (Span R3Node : Type) : Type := {
  loading_children : list R3Node;
  loading_afterTime : option Z;
  loading_minimumTime : option Z;
  loading_sourceSpan : Span;
  loading_startSourceSpan : Span;
  loading_endSourceSpan : Span
}.
Arguments Build_DeferredBlockLoading {Span R3Node} _ _ _ _ _ _.
Arguments loading_children {Span R3Node} _.
Arguments loading_afterTime {Span R3Node} _.
Arguments loading_minimumTime {Span R3Node} _.
Arguments loading_sourceSpan {Span R3Node} _.
Arguments loading_startSourceSpan {Span R3Node} _.
Arguments loading_endSourceSpan {Span R3Node} _.

Record DeferredBlockError (Span R3Node : Type) : Type := {
  error_children : list R3Node;
  error_sourceSpan : Span;
  error_startSourceSpan : Span;
  error_endSourceSpan : Span
}.
Arguments Build_DeferredBlockError {Span R3Node} _ _ _ _.
Arguments error_children {Span R3Node} _.
Arguments error_sourceSpan {Span R3Node} _.
Arguments error_startSourceSpan {Span R3Node} _.
Arguments error_endSourceSpan {Span R3Node} _.

(** [DeferredBlockTriggers]: an object used as a map from the kind of a
    trigger to the trigger. *)
Abbreviation DeferredBlockTriggers Trigger := (gmap jsstring Trigger).

Record DeferredBlock (Span R3Node Trigger : Type) : Type := {
  children : list R3Node;
  triggers : DeferredBlockTriggers Trigger;
  prefetchTriggers : DeferredBlockTriggers Trigger;
  placeholder : option (DeferredBlockPlaceholder Span R3Node);
  loading : option (DeferredBlockLoading Span R3Node);
  error : option (DeferredBlockError Span R3Node);
  sourceSpan : Span;
  startSourceSpan : Span;
  endSourceSpan : Span
}.
Arguments Build_DeferredBlock {Span R3Node Trigger} _ _ _ _ _ _ _ _ _.
Arguments children {Span R3Node Trigger} _.
Arguments triggers {Span R3Node Trigger} _.
Arguments prefetchTriggers {Span R3Node Trigger} _.
Arguments placeholder {Span R3Node Trigger} _.
Arguments loading {Span R3Node Trigger} _.
Arguments error {Span R3Node Trigger} _.
Arguments sourceSpan {Span R3Node Trigger} _.
Arguments startSourceSpan {Span R3Node Trigger} _.
Arguments endSourceSpan {Span R3Node Trigger} _.

End t.

(** ** The imports of the file

    The functions the file calls and does not define.  Each of them may
    throw.  [parseWhenTrigger] and [parseOnTrigger] write to the trigger
    object and to the list of errors they are handed: they return both.
    No import writes to the blocks, the parameters or the nodes it is
    given: the syntax trees are immutable values. *)

Class Imports (Span Node R3Node Visitor Trigger BindingParser : Type) : Type := {
  (** [html.visitAll(visitor, nodes, context)] *)
  visitAll : Visitor -> list Node -> list Node -> Completion (list R3Node);
  (** [getTriggerParametersStart(value)] of r3_deferred_triggers *)
  getTriggerParametersStart : jsstring -> Completion Z;
  (** [parseDeferredTime(value)]: a number or [null] *)
  parseDeferredTime : jsstring -> Completion (option Z);
  (** [parseWhenTrigger(param, bindingParser, triggers, errors)] *)
  parseWhenTrigger :
    html.BlockParameter Span -> BindingParser ->
    t.DeferredBlockTriggers Trigger -> list (ParseError Span) ->
    Completion (t.DeferredBlockTriggers Trigger * list (ParseError Span));
  (** [parseOnTrigger(param, triggers, errors, placeholder)] *)
  parseOnTrigger :
    html.BlockParameter Span ->
    t.DeferredBlockTriggers Trigger -> list (ParseError Span) ->
    option (t.DeferredBlockPlaceholder Span R3Node) ->
    Completion (t.DeferredBlockTriggers Trigger * list (ParseError Span))
}.

(** ** r3_deferred_blocks.ts *)

(** Predicate function that determines if a block with a specific name can
    be connected to a [defer] block. *)
Definition isConnectedDeferLoopBlock (name : jsstring) : bool :=
  bool_decide (name = str "placeholder")
  || bool_decide (name = str "loading")
  || bool_decide (name = str "error").

(** How one round of a [for] loop ends: the next round, or [break]. *)
Inductive LoopSignal : Type := Continue | Break.

Section DeferredBlocks.
Context {Span Node R3Node Visitor Trigger BindingParser : Type}.
Context {imports : Imports Span Node R3Node Visitor Trigger BindingParser}.

#[local] Abbreviation Block := (html.Block Span Node).
#[local] Abbreviation BlockParameter := (html.BlockParameter Span).
#[local] Abbreviation Placeholder := (t.DeferredBlockPlaceholder Span R3Node).
#[local] Abbreviation Loading := (t.DeferredBlockLoading Span R3Node).
#[local] Abbreviation Error := (t.DeferredBlockError Span R3Node).
#[local] Abbreviation Triggers := (t.DeferredBlockTriggers Trigger).
#[local] Abbreviation Errors := (list (ParseError Span)).

(** [errors.push(e)] *)
Definition push (errors : Errors) (e : ParseError Span) : Errors := errors ++ [e].

(** The loop of [parsePlaceholderBlock] over [ast.parameters]. *)
Fixpoint parsePlaceholderParameters (params : list BlockParameter)
    (minimumTime : option Z) : Completion (option Z) :=
  match params with
  | [] => Normal minimumTime
  | param :: rest =>
      if test MINIMUM_PARAMETER_PATTERN (html.expression param) then
        match minimumTime with
        | Some _ =>
            Throw (str "@placeholder block can only have one " ++
                   dquote ++ str "minimum" ++ dquote ++ str " parameter")
        | None =>
            start ← getTriggerParametersStart (html.expression param);
            parsedTime ← parseDeferredTime (slice (html.expression param) start);
            match parsedTime with
            | None =>
                Throw (str "Could not parse time value of parameter " ++
                       dquote ++ str "minimum" ++ dquote)
            | Some time => parsePlaceholderParameters rest (Some time)
            end
        end
      else
        Throw (str "Unrecognized parameter in @placeholder block: " ++
               dquote ++ html.expression param ++ dquote)
  end.

Definition parsePlaceholderBlock (ast : Block) (visitor : Visitor)
    : Completion Placeholder :=
  minimumTime ← parsePlaceholderParameters (html.parameters ast) None;
  children ← visitAll visitor (html.children ast) (html.children ast);
  Normal (t.Build_DeferredBlockPlaceholder children minimumTime
            (html.blockSourceSpan ast) (html.startSourceSpan ast)
            (html.endSourceSpan ast)).

(** The loop of [parseLoadingBlock] over [ast.parameters]. *)
Fixpoint parseLoadingParameters (params : list BlockParameter)
    (afterTime minimumTime : option Z) : Completion (option Z * option Z) :=
  match params with
  | [] => Normal (afterTime, minimumTime)
  | param :: rest =>
      if test AFTER_PARAMETER_PATTERN (html.expression param) then
        match afterTime with
        | Some _ =>
            Throw (str "@loading block can only have one " ++
                   dquote ++ str "after" ++ dquote ++ str " parameter")
        | None =>
            start ← getTriggerParametersStart (html.expression param);
            parsedTime ← parseDeferredTime (slice (html.expression param) start);
            match parsedTime with
            | None =>
                Throw (str "Could not parse time value of parameter " ++
                       dquote ++ str "after" ++ dquote)
            | Some time => parseLoadingParameters rest (Some time) minimumTime
            end
        end
      else if test MINIMUM_PARAMETER_PATTERN (html.expression param) then
        match minimumTime with
        | Some _ =>
            Throw (str "@loading block can only have one " ++
                   dquote ++ str "minimum" ++ dquote ++ str " parameter")
        | None =>
            start ← getTriggerParametersStart (html.expression param);
            parsedTime ← parseDeferredTime (slice (html.expression param) start);
            match parsedTime with
            | None =>
                Throw (str "Could not parse time value of parameter " ++
                       dquote ++ str "minimum" ++ dquote)
            | Some time => parseLoadingParameters rest afterTime (Some time)
            end
        end
      else
        Throw (str "Unrecognized parameter in @loading block: " ++
               dquote ++ html.expression param ++ dquote)
  end.

Definition parseLoadingBlock (ast : Block) (visitor : Visitor)
    : Completion Loading :=
  times ← parseLoadingParameters (html.parameters ast) None None;
  children ← visitAll visitor (html.children ast) (html.children ast);
  Normal (t.Build_DeferredBlockLoading children times.1 times.2
            (html.blockSourceSpan ast) (html.startSourceSpan ast)
            (html.endSourceSpan ast)).

Definition parseErrorBlock (ast : Block) (visitor : Visitor)
    : Completion Error :=
  if (0 <? length (html.parameters ast))%nat then
    Throw (str "@error block cannot have parameters")
  else
    children ← visitAll visitor (html.children ast) (html.children ast);
    Normal (t.Build_DeferredBlockError children
              (html.blockSourceSpan ast) (html.startSourceSpan ast)
              (html.endSourceSpan ast)).

(** The variables of [parseConnectedBlocks] and the list [errors] it
    writes to. *)
Record ConnectedBlocks : Type := {
  placeholder : option Placeholder;
  loading : option Loading;
  error : option Error;
  errors : Errors
}.

Definition pushError (st : ConnectedBlocks) (e : ParseError Span) : ConnectedBlocks :=
  {| placeholder := placeholder st; loading := loading st;
     error := error st; errors := push (errors st) e |}.

(** The [try] block of one round of the loop of [parseConnectedBlocks]. *)
Definition parseConnectedBlock_try (visitor : Visitor) (block : Block)
    (st : ConnectedBlocks) : Completion (LoopSignal * ConnectedBlocks) :=
  if negb (isConnectedDeferLoopBlock (html.name block)) then
    Normal (Break,
            pushError st
              (Build_ParseError (html.startSourceSpan block)
                 (str "Unrecognized block " ++ dquote ++ str "@" ++
                  html.name block ++ dquote)))
  else if bool_decide (html.name block = str "placeholder") then
    match placeholder st with
    | Some _ =>
        Normal (Continue,
                pushError st
                  (Build_ParseError (html.startSourceSpan block)
                     (str "@defer block can only have one @placeholder block")))
    | None =>
        node ← parsePlaceholderBlock block visitor;
        Normal (Continue,
                {| placeholder := Some node; loading := loading st;
                   error := error st; errors := errors st |})
    end
  else if bool_decide (html.name block = str "loading") then
    match loading st with
    | Some _ =>
        Normal (Continue,
                pushError st
                  (Build_ParseError (html.startSourceSpan block)
                     (str "@defer block can only have one @loading block")))
    | None =>
        node ← parseLoadingBlock block visitor;
        Normal (Continue,
                {| placeholder := placeholder st; loading := Some node;
                   error := error st; errors := errors st |})
    end
  else if bool_decide (html.name block = str "error") then
    match error st with
    | Some _ =>
        Normal (Continue,
                pushError st
                  (Build_ParseError (html.startSourceSpan block)
                     (str "@defer block can only have one @error block")))
    | None =>
        node ← parseErrorBlock block visitor;
        Normal (Continue,
                {| placeholder := placeholder st; loading := loading st;
                   error := Some node; errors := errors st |})
    end
  else Normal (Continue, st).

(** One round: the [try] block and its [catch].  Nothing is written
    before a sub-parser throws, so the handler starts from [st]. *)
Definition parseConnectedBlock (visitor : Visitor) (block : Block)
    (st : ConnectedBlocks) : LoopSignal * ConnectedBlocks :=
  match parseConnectedBlock_try visitor block st with
  | Normal r => r
  | Throw message =>
      (Continue,
       pushError st (Build_ParseError (html.startSourceSpan block) message))
  end.

(** [for (const block of connectedBlocks)] *)
Fixpoint parseConnectedBlocks_loop (visitor : Visitor)
    (connectedBlocks : list Block) (st : ConnectedBlocks) : ConnectedBlocks :=
  match connectedBlocks with
  | [] => st
  | block :: rest =>
      match parseConnectedBlock visitor block st with
      | (Break, st') => st'
      | (Continue, st') => parseConnectedBlocks_loop visitor rest st'
      end
  end.

Definition parseConnectedBlocks (connectedBlocks : list Block)
    (errors : Errors) (visitor : Visitor) : ConnectedBlocks :=
  parseConnectedBlocks_loop visitor connectedBlocks
    {| placeholder := None; loading := None; error := None; errors := errors |}.

(** The two trigger objects of [parsePrimaryTriggers] and the list
    [errors] it writes to. *)
Record PrimaryTriggers : Type := {
  triggers : Triggers;
  prefetchTriggers : Triggers;
  triggerErrors : Errors
}.

(** One round of the loop of [parsePrimaryTriggers]. *)
Definition parsePrimaryTrigger (bindingParser : BindingParser)
    (placeholder : option Placeholder) (param : BlockParameter)
    (st : PrimaryTriggers) : Completion PrimaryTriggers :=
  if test WHEN_PARAMETER_PATTERN (html.expression param) then
    r ← parseWhenTrigger param bindingParser (triggers st) (triggerErrors st);
    Normal {| triggers := r.1; prefetchTriggers := prefetchTriggers st;
              triggerErrors := r.2 |}
  else if test ON_PARAMETER_PATTERN (html.expression param) then
    r ← parseOnTrigger param (triggers st) (triggerErrors st) placeholder;
    Normal {| triggers := r.1; prefetchTriggers := prefetchTriggers st;
              triggerErrors := r.2 |}
  else if test PREFETCH_WHEN_PATTERN (html.expression param) then
    r ← parseWhenTrigger param bindingParser (prefetchTriggers st) (triggerErrors st);
    Normal {| triggers := triggers st; prefetchTriggers := r.1;
              triggerErrors := r.2 |}
  else if test PREFETCH_ON_PATTERN (html.expression param) then
    r ← parseOnTrigger param (prefetchTriggers st) (triggerErrors st) placeholder;
    Normal {| triggers := triggers st; prefetchTriggers := r.1;
              triggerErrors := r.2 |}
  else
    Normal {| triggers := triggers st; prefetchTriggers := prefetchTriggers st;
              triggerErrors :=
                push (triggerErrors st)
                  (Build_ParseError (html.sourceSpan param)
                     (str "Unrecognized trigger")) |}.

(** [for (const param of params)] *)
Fixpoint parsePrimaryTriggers_loop (bindingParser : BindingParser)
    (placeholder : option Placeholder) (params : list BlockParameter)
    (st : PrimaryTriggers) : Completion PrimaryTriggers :=
  match params with
  | [] => Normal st
  | param :: rest =>
      st' ← parsePrimaryTrigger bindingParser placeholder param st;
      parsePrimaryTriggers_loop bindingParser placeholder rest st'
  end.

Definition parsePrimaryTriggers (params : list BlockParameter)
    (bindingParser : BindingParser) (errors : Errors)
    (placeholder : option Placeholder) : Completion PrimaryTriggers :=
  parsePrimaryTriggers_loop bindingParser placeholder params
    {| triggers := ∅; prefetchTriggers := ∅; triggerErrors := errors |}.

(** Creates a deferred block from an HTML AST node. *)
Definition createDeferredBlock (ast : Block) (connectedBlocks : list Block)
    (visitor : Visitor) (bindingParser : BindingParser)
    : Completion (t.DeferredBlock Span R3Node Trigger * Errors) :=
  let connected := parseConnectedBlocks connectedBlocks [] visitor in
  primary ← parsePrimaryTriggers (html.parameters ast) bindingParser
              (errors connected) (placeholder connected);
  children ← visitAll visitor (html.children ast) (html.children ast);
  Normal (t.Build_DeferredBlock children (triggers primary)
            (prefetchTriggers primary) (placeholder connected)
            (loading connected) (error connected)
            (html.blockSourceSpan ast) (html.startSourceSpan ast)
            (html.endSourceSpan ast),
          triggerErrors primary).

End DeferredBlocks.

Arguments ConnectedBlocks : clear implicits.
Arguments PrimaryTriggers : clear implicits.

(** ** The three kinds of connected blocks, seen uniformly

    The source keeps one variable per kind of connected block, each of its
    own type.  To speak of "the slot of the kind of this block" the three
    are read through one view. *)

Inductive Kind : Type := placeholderKind | loadingKind | errorKind.

Definition kindName (k : Kind) : jsstring :=
  match k with
  | placeholderKind => str "placeholder"
  | loadingKind => str "loading"
  | errorKind => str "error"
  end.

Inductive ConnectedNode (Span R3Node : Type) : Type :=
  | PlaceholderNode (node : t.DeferredBlockPlaceholder Span R3Node)
  | LoadingNode (node : t.DeferredBlockLoading Span R3Node)
  | ErrorNode (node : t.DeferredBlockError Span R3Node).
Arguments PlaceholderNode {Span R3Node} node.
Arguments LoadingNode {Span R3Node} node.
Arguments ErrorNode {Span R3Node} node.

(** What the variable of kind [k] holds. *)
Definition slot {Span R3Node : Type} (st : ConnectedBlocks Span R3Node) (k : Kind)
    : option (ConnectedNode Span R3Node) :=
  match k with
  | placeholderKind => PlaceholderNode <$> placeholder st
  | loadingKind => LoadingNode <$> loading st
  | errorKind => ErrorNode <$> error st
  end.

(** The sub-parser of kind [k]. *)
Definition parseKind {Span Node R3Node Visitor Trigger BindingParser : Type}
    {imports : Imports Span Node R3Node Visitor Trigger BindingParser}
    (k : Kind) (block : html.Block Span Node) (visitor : Visitor)
    : Completion (ConnectedNode Span R3Node) :=
  match k with
  | placeholderKind => node ← parsePlaceholderBlock block visitor; Normal (PlaceholderNode node)
  | loadingKind => node ← parseLoadingBlock block visitor; Normal (LoadingNode node)
  | errorKind => node ← parseErrorBlock block visitor; Normal (ErrorNode node)
  end.

(** The diagnostic for a second block of kind [k]. *)
Definition duplicateBlock {Span : Type} (at_span : Span) (k : Kind) : ParseError Span :=
  Build_ParseError at_span
    (str "@defer block can only have one @" ++ kindName k ++ str " block").

(** [block] is a connected block of kind [k] that the sub-parser of its
    kind accepts, and [node] is what the sub-parser returns for it. *)
Definition parsesTo {Span Node R3Node Visitor Trigger BindingParser : Type}
    {imports : Imports Span Node R3Node Visitor Trigger BindingParser}
    (visitor : Visitor) (k : Kind) (block : html.Block Span Node)
    (node : ConnectedNode Span R3Node) : Prop :=
  html.name block = kindName k /\ parseKind k block visitor = Normal node.

(** The four patterns of the trigger dispatcher, in the order in which
    [parsePrimaryTriggers] tries them. *)
Definition triggerPatterns : list regex :=
  [WHEN_PARAMETER_PATTERN; ON_PARAMETER_PATTERN;
   PREFETCH_WHEN_PATTERN; PREFETCH_ON_PATTERN].

(** ** What the loops reach and count

    Further vocabulary, for the properties of the classifier and of the
    sub-parsers as a whole. *)

(** The blocks that the loop of [parseConnectedBlocks] hands to a
    sub-parser or reports as a duplicate: those before the first block of
    an unrecognized name. *)
Fixpoint parsedBlocks {Span Node : Type} (connectedBlocks : list (html.Block Span Node))
    : list (html.Block Span Node) :=
  match connectedBlocks with
  | [] => []
  | block :: rest =>
      if isConnectedDeferLoopBlock (html.name block) then block :: parsedBlocks rest
      else []
  end.

(** The number of rounds of the loop of [parseConnectedBlocks]: one for
    each parsed block and one for the block the loop is left at. *)
Fixpoint rounds {Span Node : Type} (connectedBlocks : list (html.Block Span Node)) : nat :=
  match connectedBlocks with
  | [] => 0
  | block :: rest =>
      if isConnectedDeferLoopBlock (html.name block) then S (rounds rest) else 1
  end.

(** The node of [block] if it is a block of kind [k] that the sub-parser of
    [k] accepts. *)
Definition accepted {Span Node R3Node Visitor Trigger BindingParser : Type}
    {imports : Imports Span Node R3Node Visitor Trigger BindingParser}
    (visitor : Visitor) (k : Kind) (block : html.Block Span Node)
    : option (ConnectedNode Span R3Node) :=
  if bool_decide (html.name block = kindName k) then
    match parseKind k block visitor with
    | Normal node => Some node
    | Throw _ => None
    end
  else None.

(** The number of slots that are not [null]. *)
Definition filledSlots {Span R3Node : Type} (st : ConnectedBlocks Span R3Node) : nat :=
  length (omap (slot st) [placeholderKind; loadingKind; errorKind]).

(** [st] with the diagnostics [before] in front of its own. *)
Definition prependErrors {Span R3Node : Type} (before : list (ParseError Span))
    (st : ConnectedBlocks Span R3Node) : ConnectedBlocks Span R3Node :=
  {| placeholder := placeholder st; loading := loading st; error := error st;
     errors := before ++ errors st |}.

(** The number of parameters whose expression [pattern] matches. *)
Definition countMatching {Span : Type} (pattern : regex)
    (params : list (html.BlockParameter Span)) : nat :=
  length (List.filter (fun param => test pattern (html.expression param)) params).

(** ** The prefixes as the spec words them

    The spec speaks of expressions that start with one of four prefixes,
    each ending in one space.  [startsWith] is [String.prototype.startsWith]
    and [literalTriggerPrefixes] are those four, to compare the wording
    with the patterns of the source. *)

Fixpoint startsWith (prefix s : jsstring) : bool :=
  match prefix, s with
  | [], _ => true
  | _ :: _, [] => false
  | p :: prefix', c :: s' => (p =? c)%N && startsWith prefix' s'
  end.

Definition literalTriggerPrefixes : list jsstring :=
  [str "when "; str "on "; str "prefetch when "; str "prefetch on "].

(** ** Collaborators to run the parser with

    The collaborators of the parser live in files that are not part of the
    sources at hand.  The properties below hold for every implementation of
    [Imports]; the definitions of this section give one, to run the parser
    on concrete templates. *)

Definition is_digit (c : N) : bool := ((48 <=? c) && (c <=? 57))%N.

(** The decimal number at the start of [s], after the digits [acc], and
    what follows it. *)
Fixpoint read_number (s : jsstring) (acc : Z) : Z * jsstring :=
  match s with
  | c :: rest =>
      if is_digit c then read_number rest (10 * acc + (Z.of_N c - 48))%Z
      else (acc, s)
  | [] => (acc, [])
  end.

(** Modelled from the spec: [parseDeferredTime] of r3_deferred_triggers,
    the external duration parser, which returns a duration in milliseconds
    or the sentinel [null].  This one reads a decimal number followed by
    [ms]; every other text is unparsable. *)
Definition spec_parseDeferredTime (value : jsstring) : option Z :=
  match value with
  | c :: _ =>
      if is_digit c then
        let '(n, units) := read_number value 0 in
        if bool_decide (units = str "ms") then Some n else None
      else None
  | [] => None
  end.

(** The index, counted from [i], of the first code unit of [value] that is
    not white space and comes after white space. *)
Fixpoint parameters_start_from (value : jsstring) (i : Z) (hasFoundSeparator : bool) : Z :=
  match value with
  | [] => (-1)%Z
  | c :: rest =>
      if is_whitespace c then parameters_start_from rest (i + 1)%Z true
      else if hasFoundSeparator then i
      else parameters_start_from rest (i + 1)%Z false
  end.

(** Modelled from the spec: [getTriggerParametersStart] of
    r3_deferred_triggers, the shared helper that computes the offset at
    which the value of a parameter starts, after its keyword.  Where no
    value follows the keyword the spec names no offset; this one answers
    -1. *)
Definition spec_getTriggerParametersStart (value : jsstring) : Z :=
  parameters_start_from value 0 false.

(** The last word of [s], after the word [acc]. *)
Fixpoint last_word (s acc : jsstring) : jsstring :=
  match s with
  | [] => acc
  | c :: rest => if is_whitespace c then last_word rest [] else last_word rest (acc ++ [c])
  end.

(** What the two trigger parsers below do with the trigger [value] of kind
    [key]: a kind that the set holds already is reported, a new one is
    registered. *)
Definition register_trigger {Span : Type} (key : jsstring) (value : jsstring)
    (at_span : Span) (triggers : gmap jsstring jsstring) (errors : list (ParseError Span))
    : gmap jsstring jsstring * list (ParseError Span) :=
  match triggers !! key with
  | Some _ => (triggers, errors ++ [Build_ParseError at_span (str "Duplicate trigger")])
  | None => (<[key := value]> triggers, errors)
  end.

(** Modelled from the spec: the collaborators of the parser, none of which
    is part of the sources at hand.  The visitor hands back the children it
    is given; the trigger parsers register the text of a parameter under
    the kind of the trigger ([when], or the word that follows [on]), detect
    a kind that is registered twice and only ever append to the
    diagnostics; no collaborator throws. *)
Definition spec_imports : Imports nat jsstring jsstring unit jsstring unit := {|
  visitAll := fun _ nodes _ => Normal nodes;
  getTriggerParametersStart := fun value => Normal (spec_getTriggerParametersStart value);
  parseDeferredTime := fun value => Normal (spec_parseDeferredTime value);
  parseWhenTrigger := fun param _ triggers errors =>
    Normal (register_trigger (str "when") (html.expression param)
              (html.sourceSpan param) triggers errors);
  parseOnTrigger := fun param triggers errors _ =>
    Normal (register_trigger (last_word (html.expression param) [])
              (html.expression param) (html.sourceSpan param) triggers errors)
|}.

(** Modelled from the spec: collaborators that throw, none of which is part
    of the sources at hand.  They are those of [spec_imports], but the
    visitor is the message it throws on every list of children, or [None]
    for the visitor that hands the children back, and the parser of
    conditional triggers throws [whenFailure] on every parameter when
    that is a message. *)
Definition faulty_imports (whenFailure : option jsstring)
    : Imports nat jsstring jsstring (option jsstring) jsstring unit := {|
  visitAll := fun visitor nodes _ =>
    match visitor with
    | Some message => Throw message
    | None => Normal nodes
    end;
  getTriggerParametersStart := fun value => Normal (spec_getTriggerParametersStart value);
  parseDeferredTime := fun value => Normal (spec_parseDeferredTime value);
  parseWhenTrigger := fun param _ triggers errors =>
    match whenFailure with
    | Some message => Throw message
    | None =>
        Normal (register_trigger (str "when") (html.expression param)
                  (html.sourceSpan param) triggers errors)
    end;
  parseOnTrigger := fun param triggers errors _ =>
    Normal (register_trigger (last_word (html.expression param) [])
              (html.expression param) (html.sourceSpan param) triggers errors)
|}.

(** A block of a template: its name, the text of its parameters and the
    offset it starts at. *)
Definition block_of (name : jsstring) (params : list jsstring) (start : nat)
    : html.Block nat jsstring :=
  {| html.name := name;
     html.parameters :=
       imap (fun i e => {| html.expression := e; html.sourceSpan := start + 1 + i |}) params;
     html.children := [name];
     html.blockSourceSpan := start;
     html.startSourceSpan := start;
     html.endSourceSpan := start |}.

Definition block (name : String.string) (params : list String.string) (start : nat)
    : html.Block nat jsstring :=
  block_of (str name) (str <$> params) start.

(** * Properties *)

(** ** The matcher against the language of a pattern *)

Lemma nullable_matches (r : regex) : nullable r = true <-> matches r [].
Proof.
  split.
  - induction r; simpl; intros Hn; try discriminate.
    + constructor.
    + apply andb_prop in Hn as [H1 H2].
      change (@nil N) with (@nil N ++ []). constructor; auto.
    + apply orb_prop in Hn as [H1 | H2]; [apply m_alt_l | apply m_alt_r]; auto.
    + constructor.
  - intros Hm. remember [] as s eqn:Es.
    induction Hm; simpl; try discriminate; auto.
    + apply app_eq_nil in Es as [-> ->]. rewrite IHHm1, IHHm2; auto.
    + rewrite IHHm; auto.
    + rewrite IHHm; auto using orb_true_r.
Qed.

Lemma deriv_sound (c : N) (r : regex) (s : jsstring) :
  matches (deriv c r) s -> matches r (c :: s).
Proof.
  revert s. induction r; simpl; intros s Hm.
  - inversion Hm.
  - inversion Hm.
  - destruct (N.eqb_spec c c0) as [-> | _]; inversion Hm; subst. constructor.
  - destruct (is_whitespace c) eqn:Hc; inversion Hm; subst. by constructor.
  - destruct (nullable r1) eqn:Hn.
    + inversion Hm as [| | | | ? ? ? Hl | ? ? ? Hr | |]; subst.
      * inversion Hl; subst.
        change (c :: s1 ++ s2) with ((c :: s1) ++ s2). constructor; auto.
      * change (c :: s) with ([] ++ c :: s).
        constructor; [by apply nullable_matches | auto].
    + inversion Hm; subst.
      change (c :: s1 ++ s2) with ((c :: s1) ++ s2). constructor; auto.
  - inversion Hm; subst; [apply m_alt_l | apply m_alt_r]; auto.
  - inversion Hm; subst.
    change (c :: s1 ++ s2) with ((c :: s1) ++ s2). constructor; auto.
Qed.

Lemma deriv_complete (c : N) (r : regex) (s : jsstring) :
  matches r (c :: s) -> matches (deriv c r) s.
Proof.
  intros Hm. remember (c :: s) as cs eqn:Ecs. revert s Ecs.
  induction Hm; intros tl Ecs; simpl; try discriminate.
  - injection Ecs as -> <-. rewrite N.eqb_refl. constructor.
  - injection Ecs as -> <-. rewrite H. constructor.
  - destruct s1 as [| c1 s1]; simpl in Ecs.
    + apply nullable_matches in Hm1 as ->. apply m_alt_r; auto.
    + injection Ecs as -> <-.
      destruct (nullable r1); [apply m_alt_l |]; constructor; auto.
  - apply m_alt_l; auto.
  - apply m_alt_r; auto.
  - destruct s1 as [| c1 s1]; simpl in Ecs.
    + by apply IHHm2.
    + injection Ecs as -> <-. constructor; auto.
Qed.

(** [test] answers whether a prefix of the string is in the language of
    the pattern. *)
Lemma test_matches (r : regex) (s : jsstring) :
  test r s = true <-> exists p q, s = p ++ q /\ matches r p.
Proof.
  revert r. induction s as [| c s IH]; intros r; simpl.
  - rewrite orb_false_r, nullable_matches. split.
    + intros Hm. by exists [], [].
    + intros (p & q & Es & Hm). symmetry in Es.
      by apply app_eq_nil in Es as [-> _].
  - rewrite orb_true_iff, nullable_matches, IH. split.
    + intros [Hm | (p & q & -> & Hm)].
      * by exists [], (c :: s).
      * exists (c :: p), q. split; [done | by apply deriv_sound].
    + intros ([| c' p] & q & Es & Hm); [by left | right].
      simpl in Es. injection Es as <- ->.
      exists p, q. split; [done | by apply deriv_complete].
Qed.

Lemma matches_word (w p : jsstring) : matches (word w) p <-> p = w.
Proof.
  revert p. induction w as [| c w IH]; intros p; simpl; split.
  - by inversion 1.
  - intros ->. constructor.
  - inversion 1 as [| | | ? ? ? ? Hc Hw | | | |]; subst.
    inversion Hc; subst. apply IH in Hw as ->. done.
  - intros ->. change (c :: w) with ([c] ++ w).
    constructor; [constructor | by apply IH].
Qed.

Lemma matches_space (p : jsstring) :
  matches Space p <-> exists c, p = [c] /\ is_whitespace c = true.
Proof.
  split.
  - inversion 1; subst. eauto.
  - intros (c & -> & Hc). by constructor.
Qed.

Lemma matches_cat (r1 r2 : regex) (p : jsstring) :
  matches (Cat r1 r2) p <-> exists p1 p2, p = p1 ++ p2 /\ matches r1 p1 /\ matches r2 p2.
Proof.
  split.
  - inversion 1; subst. eauto.
  - intros (p1 & p2 & -> & H1 & H2). by constructor.
Qed.

Lemma matches_star_space (p : jsstring) :
  matches (Star Space) p <-> Forall (fun c => is_whitespace c = true) p.
Proof.
  split.
  - intros Hm. remember (Star Space) as r eqn:Er.
    induction Hm; try discriminate; injection Er as ->.
    + constructor.
    + apply matches_space in Hm1 as (c & -> & Hc). constructor; auto.
  - induction 1 as [| c p Hc _ IH].
    + constructor.
    + change (c :: p) with ([c] ++ p). constructor; [by constructor | done].
Qed.

(** [\s+]: a run of white space that is not empty. *)
Lemma matches_plus_space (p : jsstring) :
  matches (Plus Space) p <->
  p <> [] /\ Forall (fun c => is_whitespace c = true) p.
Proof.
  unfold Plus. rewrite matches_cat. split.
  - intros (p1 & p2 & -> & H1 & H2).
    apply matches_space in H1 as (c & -> & Hc).
    apply matches_star_space in H2. split; [done | by constructor].
  - intros [Hne Hall]. destruct Hall as [| c p Hc Hall]; [done |].
    exists [c], p. split; [done |]. split; [by constructor |].
    by apply matches_star_space.
Qed.

(** [/^keyword\s/]: the keyword and one white space, at the start. *)
Lemma test_keyword (w s : jsstring) :
  test (Cat (word w) Space) s = true <->
  exists c rest, s = w ++ c :: rest /\ is_whitespace c = true.
Proof.
  rewrite test_matches. split.
  - intros (p & q & -> & Hm).
    apply matches_cat in Hm as (p1 & p2 & -> & H1 & H2).
    apply matches_word in H1 as ->.
    apply matches_space in H2 as (c & -> & Hc).
    exists c, q. by rewrite <- app_assoc.
  - intros (c & rest & -> & Hc). exists (w ++ [c]), rest.
    split; [by rewrite <- app_assoc |].
    constructor; [by apply matches_word | by constructor].
Qed.

(** [/^prefetch\s+keyword\s/] *)
Lemma test_prefetch_keyword (w s : jsstring) :
  test (Cat (word (str "prefetch")) (Cat (Plus Space) (Cat (word w) Space))) s = true <->
  exists sep c rest,
    s = str "prefetch" ++ sep ++ w ++ c :: rest /\
    sep <> [] /\ Forall (fun c => is_whitespace c = true) sep /\
    is_whitespace c = true.
Proof.
  rewrite test_matches. split.
  - intros (p & q & -> & Hm).
    apply matches_cat in Hm as (p1 & p2 & -> & H1 & Hm).
    apply matches_word in H1 as ->.
    apply matches_cat in Hm as (sep & p3 & -> & Hsep & Hm).
    apply matches_plus_space in Hsep as [Hne Hall].
    apply matches_cat in Hm as (p4 & p5 & -> & H4 & H5).
    apply matches_word in H4 as ->.
    apply matches_space in H5 as (c & -> & Hc).
    exists sep, c, q. split; [| done].
    by rewrite <- !app_assoc.
  - intros (sep & c & rest & -> & Hne & Hall & Hc).
    exists (str "prefetch" ++ sep ++ w ++ [c]), rest.
    split; [by rewrite <- !app_assoc |].
    constructor; [by apply matches_word |].
    constructor; [by apply matches_plus_space |].
    constructor; [by apply matches_word | by constructor].
Qed.

(** Where a run of white space ends is determined by the string. *)
Lemma whitespace_run_unique (sep1 sep2 : jsstring) (a b : N) (rest1 rest2 : jsstring) :
  Forall (fun c => is_whitespace c = true) sep1 ->
  Forall (fun c => is_whitespace c = true) sep2 ->
  is_whitespace a = false -> is_whitespace b = false ->
  sep1 ++ a :: rest1 = sep2 ++ b :: rest2 ->
  a = b.
Proof.
  intros H1. revert sep2. induction H1 as [| c sep1 Hc _ IH]; intros sep2 H2 Ha Hb Heq.
  - destruct H2 as [| c' sep2 Hc' _]; simpl in Heq; [congruence |].
    injection Heq as -> _. congruence.
  - destruct H2 as [| c' sep2 Hc' H2]; simpl in Heq.
    + injection Heq as -> _. congruence.
    + injection Heq as _ Heq. by eapply IH.
Qed.

(** The four trigger patterns exclude one another: no expression is
    matched by two of them. *)
Lemma trigger_patterns_exclusive (s : jsstring) :
  length (List.filter (fun pattern => test pattern s) triggerPatterns) <= 1.
Proof.
  unfold triggerPatterns. cbn [List.filter].
  destruct (test WHEN_PARAMETER_PATTERN s) eqn:Hw;
    destruct (test ON_PARAMETER_PATTERN s) eqn:Ho;
    destruct (test PREFETCH_WHEN_PATTERN s) eqn:Hpw;
    destruct (test PREFETCH_ON_PATTERN s) eqn:Hpo;
    cbn [length]; try lia; exfalso;
    repeat match goal with
           | H : test _ _ = false |- _ => clear H
           | H : test WHEN_PARAMETER_PATTERN _ = true |- _ =>
               apply test_keyword in H as (? & ? & ? & ?)
           | H : test ON_PARAMETER_PATTERN _ = true |- _ =>
               apply test_keyword in H as (? & ? & ? & ?)
           | H : test PREFETCH_WHEN_PATTERN _ = true |- _ =>
               apply test_prefetch_keyword in H as (? & ? & ? & ? & ? & ? & ?)
           | H : test PREFETCH_ON_PATTERN _ = true |- _ =>
               apply test_prefetch_keyword in H as (? & ? & ? & ? & ? & ? & ?)
           end;
    subst;
    repeat match goal with
           | H : context [str ?w] |- _ =>
               let v := eval vm_compute in (str w) in change (str w) with v in H
           end;
    cbn [app] in *; try discriminate;
    match goal with
    | H : _ :: _ = _ :: _ |- _ =>
        injection H as H;
        eapply whitespace_run_unique in H; [discriminate | done | done | done | done]
    end.
Qed.

(** Membership in lists that are put together with [++] and [::]. *)
Ltac list_membership :=
  rewrite ?fmap_app, ?fmap_cons, ?elem_of_app, ?elem_of_cons in *; tauto.

(** ** One round of the classifier *)

Section Classifier.
Context {Span Node R3Node Visitor Trigger BindingParser : Type}.
Context {imports : Imports Span Node R3Node Visitor Trigger BindingParser}.
Implicit Types (block : html.Block Span Node) (visitor : Visitor).
Implicit Types (st : ConnectedBlocks Span R3Node) (k : Kind).

Lemma kindName_inj k1 k2 : kindName k1 = kindName k2 -> k1 = k2.
Proof. by destruct k1, k2. Qed.

Lemma isConnected_kindName k : isConnectedDeferLoopBlock (kindName k) = true.
Proof. by destruct k. Qed.

(** A state is its three slots and its diagnostics. *)
Lemma ConnectedBlocks_eq st1 st2 :
  (forall k, slot st1 k = slot st2 k) -> errors st1 = errors st2 -> st1 = st2.
Proof.
  intros Hs He. destruct st1 as [p1 l1 e1 d1], st2 as [p2 l2 e2 d2].
  pose proof (Hs placeholderKind) as Hp.
  pose proof (Hs loadingKind) as Hl.
  pose proof (Hs errorKind) as Hr.
  simpl in *.
  destruct p1, p2, l1, l2, e1, e2; simpl in *; congruence.
Qed.

Lemma slot_pushError st e k : slot (pushError st e) k = slot st k.
Proof. by destruct k. Qed.

(** A block of an unrecognized name: one diagnostic, and [break]. *)
Lemma round_unrecognized visitor block st :
  isConnectedDeferLoopBlock (html.name block) = false ->
  parseConnectedBlock visitor block st =
    (Break,
     pushError st
       (Build_ParseError (html.startSourceSpan block)
          (str "Unrecognized block " ++ dquote ++ str "@" ++
           html.name block ++ dquote))).
Proof.
  intros Hn. unfold parseConnectedBlock, parseConnectedBlock_try.
  by rewrite Hn.
Qed.

(** A block whose slot is filled: one diagnostic, the slot is kept. *)
Lemma round_duplicate visitor block st k node :
  html.name block = kindName k ->
  slot st k = Some node ->
  parseConnectedBlock visitor block st =
    (Continue, pushError st (duplicateBlock (html.startSourceSpan block) k)).
Proof.
  intros Hn Hs. unfold parseConnectedBlock, parseConnectedBlock_try.
  rewrite Hn. destruct k, st as [p l e d]; simpl in *.
  - by destruct p.
  - by destruct l.
  - by destruct e.
Qed.

(** A block whose slot is empty and whose sub-parser throws: the message
    becomes a diagnostic at the start of the block, the slot stays empty. *)
Lemma round_throw visitor block st k message :
  html.name block = kindName k ->
  slot st k = None ->
  parseKind k block visitor = Throw message ->
  parseConnectedBlock visitor block st =
    (Continue,
     pushError st (Build_ParseError (html.startSourceSpan block) message)).
Proof.
  intros Hn Hs Hp. unfold parseConnectedBlock, parseConnectedBlock_try.
  rewrite Hn. destruct k, st as [p l e d]; simpl in *.
  - destruct p; [done |].
    destruct (parsePlaceholderBlock block visitor); simpl in *; congruence.
  - destruct l; [done |].
    destruct (parseLoadingBlock block visitor); simpl in *; congruence.
  - destruct e; [done |].
    destruct (parseErrorBlock block visitor); simpl in *; congruence.
Qed.

(** A block whose slot is empty and whose sub-parser returns: the node
    is stored, and nothing else changes. *)
Lemma round_store visitor block st k node :
  html.name block = kindName k ->
  slot st k = None ->
  parseKind k block visitor = Normal node ->
  exists st',
    parseConnectedBlock visitor block st = (Continue, st') /\
    slot st' k = Some node /\
    (forall k', k' <> k -> slot st' k' = slot st k') /\
    errors st' = errors st.
Proof.
  intros Hn Hs Hp. unfold parseConnectedBlock, parseConnectedBlock_try.
  rewrite Hn. destruct k, st as [p l e d]; simpl in *.
  - destruct p; [done |].
    destruct (parsePlaceholderBlock block visitor) as [n |]; simpl in *; [| done].
    injection Hp as <-. eexists. split; [done |]. split; [done |].
    split; [| done]. by intros [].
  - destruct l; [done |].
    destruct (parseLoadingBlock block visitor) as [n |]; simpl in *; [| done].
    injection Hp as <-. eexists. split; [done |]. split; [done |].
    split; [| done]. by intros [].
  - destruct e; [done |].
    destruct (parseErrorBlock block visitor) as [n |]; simpl in *; [| done].
    injection Hp as <-. eexists. split; [done |]. split; [done |].
    split; [| done]. by intros [].
Qed.

Lemma parsesTo_fun visitor block k1 k2 node1 node2 :
  parsesTo visitor k1 block node1 -> parsesTo visitor k2 block node2 ->
  k1 = k2 /\ node1 = node2.
Proof.
  intros [Hn1 Hp1] [Hn2 Hp2].
  assert (k1 = k2) as -> by (apply kindName_inj; congruence).
  split; congruence.
Qed.

(** A run of accepted blocks of pairwise different kinds, whose slots are
    all empty: every node is stored, no diagnostic is added, and the loop
    goes on with what follows the run. *)
Lemma loop_fresh_run visitor (run : list (html.Block Span Node)) st :
  (forall block, block ∈ run ->
     exists k node, parsesTo visitor k block node /\ slot st k = None) ->
  NoDup (html.name <$> run) ->
  exists st',
    (forall rest,
       parseConnectedBlocks_loop visitor (run ++ rest) st =
       parseConnectedBlocks_loop visitor rest st') /\
    errors st' = errors st /\
    (forall block k node,
       block ∈ run -> parsesTo visitor k block node -> slot st' k = Some node) /\
    (forall k, (forall block, block ∈ run -> html.name block <> kindName k) ->
       slot st' k = slot st k).
Proof.
  revert st. induction run as [| b run IH]; intros st Hall Hnd.
  - exists st. split; [done |]. split; [done |]. split; [| done].
    intros ? ? ? Hin. by apply elem_of_nil in Hin.
  - rewrite fmap_cons in Hnd. apply NoDup_cons in Hnd as [Hb Hnd].
    destruct (Hall b) as (k & node & Hto & Hs); [by left |].
    destruct (round_store visitor b st k node) as (st1 & Hr & Hk & Ho & He);
      [apply Hto | done | apply Hto |].
    assert (Hrun : forall b', b' ∈ run -> html.name b' <> kindName k).
    { intros b' Hin Heq. apply Hb. destruct Hto as [-> _]. rewrite <- Heq.
      by apply list_elem_of_fmap_2. }
    destruct (IH st1) as (st' & Hloop & He' & Hstored & Hkept); [| done |].
    { intros b' Hin. destruct (Hall b') as (k' & node' & Hto' & Hs'); [by right |].
      exists k', node'. split; [done |]. rewrite Ho; [done |].
      intros ->. by apply (Hrun b' Hin), Hto'. }
    exists st'. split; [| split; [| split]].
    + intros rest. simpl. by rewrite Hr.
    + congruence.
    + intros b0 k0 node0 Hin Hto0. apply elem_of_cons in Hin as [-> | Hin].
      * destruct (parsesTo_fun _ _ _ _ _ _ Hto Hto0) as [<- <-].
        by rewrite Hkept.
      * by eapply Hstored.
    + intros k0 Hk0. rewrite Hkept.
      * apply Ho. intros ->. apply (Hk0 b); [by left | apply Hto].
      * intros b' Hin. apply Hk0. by right.
Qed.

End Classifier.

(** ** The connected blocks *)

Section ConnectedBlockClaims.
Context {Span Node R3Node Visitor Trigger BindingParser : Type}.
Context {imports : Imports Span Node R3Node Visitor Trigger BindingParser}.
Implicit Types (block : html.Block Span Node) (visitor : Visitor).
Implicit Types (st : ConnectedBlocks Span R3Node) (k : Kind).
Implicit Types (errs : list (ParseError Span)).

(** C1, as the code has it.  A placeholder block whose first two
    parameters are both [minimum] parameters, the first with a duration
    that parses: the second one makes the sub-parser throw, so the
    classifier records exactly one diagnostic, [@placeholder block can
    only have one "minimum" parameter], at the start of the block, and
    the placeholder slot stays [null]: no placeholder node is produced
    and the first value is not retained. *)
Theorem placeholder_minimum_twice visitor block p1 p2 rest errs start time :
  html.name block = str "placeholder" ->
  html.parameters block = p1 :: p2 :: rest ->
  test MINIMUM_PARAMETER_PATTERN (html.expression p1) = true ->
  test MINIMUM_PARAMETER_PATTERN (html.expression p2) = true ->
  getTriggerParametersStart (html.expression p1) = Normal start ->
  parseDeferredTime (slice (html.expression p1) start) = Normal (Some time) ->
  parseConnectedBlocks [block] errs visitor =
    {| placeholder := None; loading := None; error := None;
       errors :=
         errs ++
         [Build_ParseError (html.startSourceSpan block)
            (str "@placeholder block can only have one " ++
             dquote ++ str "minimum" ++ dquote ++ str " parameter")] |}.
Proof.
  intros Hname Hparams Hm1 Hm2 Hstart Htime.
  unfold parseConnectedBlocks. simpl.
  erewrite (round_throw visitor block _ placeholderKind); [done | done | done |].
  unfold parseKind, parsePlaceholderBlock. rewrite Hparams. simpl.
  rewrite Hm1, Hstart. simpl. rewrite Htime. simpl. by rewrite Hm2.
Qed.

(** C2.  In the list [valid placeholder, block of an unrecognized name,
    further siblings] (a valid loading block, say) the placeholder is
    stored, the loading and error slots stay [null] because the loop is
    left at the unrecognized block, and the one diagnostic is
    [Unrecognized block "@<name>"] at the start of that block. *)
Theorem unrecognized_block_stops_classification
    visitor placeholderBlock unknown rest node errs :
  html.name placeholderBlock = str "placeholder" ->
  parsePlaceholderBlock placeholderBlock visitor = Normal node ->
  isConnectedDeferLoopBlock (html.name unknown) = false ->
  parseConnectedBlocks (placeholderBlock :: unknown :: rest) errs visitor =
    {| placeholder := Some node; loading := None; error := None;
       errors :=
         errs ++
         [Build_ParseError (html.startSourceSpan unknown)
            (str "Unrecognized block " ++ dquote ++ str "@" ++
             html.name unknown ++ dquote)] |}.
Proof.
  intros Hname Hparse Hunknown.
  unfold parseConnectedBlocks. simpl.
  destruct (round_store visitor placeholderBlock
              {| placeholder := None; loading := None; error := None;
                 errors := errs |} placeholderKind (PlaceholderNode node))
    as (st1 & -> & Hk & Ho & He); [done | done | |].
  { unfold parseKind. by rewrite Hparse. }
  rewrite round_unrecognized by done.
  apply ConnectedBlocks_eq.
  - intros k. rewrite slot_pushError. destruct k; [done | |].
    + by rewrite Ho.
    + by rewrite Ho.
  - simpl. unfold push. by rewrite He.
Qed.

(** C5.  An error block with a parameter list that is not empty: the
    sub-parser throws [@error block cannot have parameters] on the length
    of the list alone, before it looks at a parameter or calls a
    collaborator, and the classifier turns this into exactly one
    diagnostic at the start of the block. *)
Theorem error_block_with_parameters visitor block errs :
  html.name block = str "error" ->
  html.parameters block <> [] ->
  parseErrorBlock block visitor = Throw (str "@error block cannot have parameters") /\
  (forall st, error st = None ->
     parseConnectedBlock visitor block st =
       (Continue,
        pushError st
          (Build_ParseError (html.startSourceSpan block)
             (str "@error block cannot have parameters")))) /\
  parseConnectedBlocks [block] errs visitor =
    {| placeholder := None; loading := None; error := None;
       errors :=
         errs ++
         [Build_ParseError (html.startSourceSpan block)
            (str "@error block cannot have parameters")] |}.
Proof.
  intros Hname Hparams.
  assert (Hthrow : parseErrorBlock block visitor =
                   Throw (str "@error block cannot have parameters")).
  { unfold parseErrorBlock. by destruct (html.parameters block). }
  assert (Hround : forall st, error st = None ->
     parseConnectedBlock visitor block st =
       (Continue,
        pushError st
          (Build_ParseError (html.startSourceSpan block)
             (str "@error block cannot have parameters")))).
  { intros st Hst. apply (round_throw visitor block st errorKind); [done | |].
    - simpl. by rewrite Hst.
    - unfold parseKind. by rewrite Hthrow. }
  split; [done |]. split; [done |].
  unfold parseConnectedBlocks. simpl. by rewrite Hround.
Qed.

(** C9.  A recognized connected block whose sub-parser fails leaves the
    slot of its kind [null], whatever the kind, so a later sibling of the
    same kind is still parsed and stored.  In the list [block whose
    sub-parser fails, valid block of the same kind] (two placeholders, say,
    the first with an invalid parameter) the slot of the kind holds the
    node of the second block, the other two slots are [null], and the one
    diagnostic carries the message the first block failed with, at the
    start of the first block: it is not the complaint about a second block
    of the kind. *)
Theorem failed_block_leaves_slot_empty visitor k block1 block2 message
    (node : ConnectedNode Span R3Node) errs :
  html.name block1 = kindName k ->
  html.name block2 = kindName k ->
  parseKind k block1 visitor = Throw message ->
  parseKind k block2 visitor = Normal node ->
  let result := parseConnectedBlocks [block1; block2] errs visitor in
  slot result k = Some node /\
  (forall k', k' <> k -> slot result k' = None) /\
  errors result =
    errs ++ [Build_ParseError (html.startSourceSpan block1) message].
Proof.
  intros Hname1 Hname2 Hfail Hok result.
  unfold result, parseConnectedBlocks. simpl.
  rewrite (round_throw visitor block1 _ k message); [| done | by destruct k | done].
  destruct (round_store visitor block2
              (pushError {| placeholder := None; loading := None; error := None;
                            errors := errs |}
                 (Build_ParseError (html.startSourceSpan block1) message))
              k node)
    as (st2 & -> & Hk & Ho & He); [done | by destruct k | done |].
  split; [done |]. split.
  - intros k' Hne. rewrite Ho by done. by destruct k'.
  - by rewrite He.
Qed.

(** C4.  A list that holds exactly one placeholder, one loading and one
    error block, in any order, each accepted by its sub-parser: the three
    slots are populated, each with the node of its block, and no
    diagnostic is added. *)
Theorem one_of_each_connected_block visitor
    (connectedBlocks : list (html.Block Span Node)) errs :
  html.name <$> connectedBlocks ≡ₚ [str "placeholder"; str "loading"; str "error"] ->
  (forall block, block ∈ connectedBlocks ->
     exists k node, parsesTo visitor k block node) ->
  let result := parseConnectedBlocks connectedBlocks errs visitor in
  is_Some (placeholder result) /\
  is_Some (loading result) /\
  is_Some (error result) /\
  errors result = errs /\
  (forall block k node,
     block ∈ connectedBlocks -> parsesTo visitor k block node ->
     slot result k = Some node).
Proof.
  intros Hperm Hvalid result.
  pose (st0 := {| placeholder := None; loading := None; error := None;
                  errors := errs |} : ConnectedBlocks Span R3Node).
  assert (Hnd : NoDup (html.name <$> connectedBlocks)).
  { rewrite Hperm. apply (bool_decide_unpack _). by vm_compute. }
  destruct (loop_fresh_run visitor connectedBlocks st0)
    as (st' & Hloop & He & Hstored & _); [| done |].
  { intros b Hin. destruct (Hvalid b Hin) as (k & node & Hto).
    exists k, node. split; [done | by destruct k]. }
  assert (Hres : result = st').
  { specialize (Hloop []). by rewrite app_nil_r in Hloop. }
  assert (Hslot : forall k, is_Some (slot result k)).
  { intros k.
    assert (Hin : kindName k ∈ html.name <$> connectedBlocks).
    { rewrite Hperm.
      destruct k; repeat first [apply list_elem_of_here | apply list_elem_of_further]. }
    apply list_elem_of_fmap in Hin as (b & Hname & Hin).
    destruct (Hvalid b Hin) as (k' & node & Hto).
    assert (k' = k) as -> by (apply kindName_inj; destruct Hto; congruence).
    rewrite Hres. erewrite Hstored; done. }
  split; [| split; [| split; [| split]]].
  - specialize (Hslot placeholderKind). simpl in Hslot.
    by apply fmap_is_Some in Hslot.
  - specialize (Hslot loadingKind). simpl in Hslot.
    by apply fmap_is_Some in Hslot.
  - specialize (Hslot errorKind). simpl in Hslot.
    by apply fmap_is_Some in Hslot.
  - by rewrite Hres.
  - rewrite Hres. apply Hstored.
Qed.

(** C3.  A list of accepted blocks in which the kind [k] comes twice, in
    [first] and later in [second], and every other kind at most once:
    exactly one diagnostic is added, [@defer block can only have one
    @<kind> block] at the start of [second]; the slot of [k] keeps the
    node of [first]; and the loop does not stop at [second]: every other
    block of the list, those after [second] included, is parsed and
    stored. *)
Theorem duplicate_connected_block visitor k first second node
    (before between after : list (html.Block Span Node)) errs :
  parsesTo visitor k first node ->
  html.name second = kindName k ->
  (forall block, block ∈ before ++ between ++ after ->
     exists k' node', k' <> k /\ parsesTo visitor k' block node') ->
  NoDup (html.name <$> before ++ between ++ after) ->
  let result :=
    parseConnectedBlocks (before ++ first :: between ++ second :: after)
      errs visitor in
  errors result =
    errs ++
    [Build_ParseError (html.startSourceSpan second)
       (str "@defer block can only have one @" ++ kindName k ++ str " block")] /\
  slot result k = Some node /\
  (forall block k' node',
     block ∈ before ++ between ++ after -> parsesTo visitor k' block node' ->
     slot result k' = Some node').
Proof.
  intros Hfirst Hsecond Hothers Hnd result.
  pose (st0 := {| placeholder := None; loading := None; error := None;
                  errors := errs |} : ConnectedBlocks Span R3Node).
  rewrite !fmap_app in Hnd.
  apply NoDup_app in Hnd as (Hnd1 & Hdis1 & Hnd).
  apply NoDup_app in Hnd as (Hnd2 & Hdis2 & Hnd3).
  (* the blocks up to [second] *)
  destruct (loop_fresh_run visitor (before ++ first :: between) st0)
    as (st1 & Hloop1 & He1 & Hstored1 & Hkept1).
  { intros b Hin.
    assert (Hb : b = first \/ b ∈ before ++ between ++ after) by list_membership.
    destruct Hb as [-> | Hb].
    - exists k, node. split; [done | by destruct k].
    - destruct (Hothers b Hb) as (k' & node' & _ & Hto).
      exists k', node'. split; [done | by destruct k']. }
  { rewrite fmap_app, fmap_cons. apply NoDup_app. split; [done |]. split.
    - intros x Hx Hx'. apply elem_of_cons in Hx' as [-> | Hx'].
      + apply list_elem_of_fmap in Hx as (b & Hname & Hin).
        destruct (Hothers b) as (k' & node' & Hne & [Hn _]); [list_membership |].
        apply Hne, kindName_inj. destruct Hfirst as [Hf _]. congruence.
      + apply (Hdis1 x Hx). list_membership.
    - apply NoDup_cons. split; [| done].
      intros Hx. apply list_elem_of_fmap in Hx as (b & Hname & Hin).
      destruct (Hothers b) as (k' & node' & Hne & [Hn _]); [list_membership |].
      apply Hne, kindName_inj. destruct Hfirst as [Hf _]. congruence. }
  (* [second] itself *)
  assert (Hk1 : slot st1 k = Some node).
  { apply (Hstored1 first); [list_membership | done]. }
  pose (st2 := pushError st1 (duplicateBlock (html.startSourceSpan second) k)).
  (* the blocks after [second] *)
  destruct (loop_fresh_run visitor after st2)
    as (st3 & Hloop3 & He3 & Hstored3 & Hkept3); [| done |].
  { intros b Hin.
    destruct (Hothers b) as (k' & node' & Hne & Hto); [list_membership |].
    exists k', node'. split; [done |].
    unfold st2. rewrite slot_pushError, Hkept1; [by destruct k' |].
    intros b' Hin' Heq.
    assert (Hname : html.name b ∈ html.name <$> after)
      by by apply list_elem_of_fmap_2.
    destruct Hto as [Hn _]. rewrite Hn, <- Heq in Hname.
    apply elem_of_app in Hin' as [Hin' | Hin'].
    - apply (Hdis1 (html.name b')); [by apply list_elem_of_fmap_2 |].
      list_membership.
    - apply elem_of_cons in Hin' as [-> | Hin'].
      + apply Hne, kindName_inj. destruct Hfirst as [Hf _]. congruence.
      + by apply (Hdis2 (html.name b')); [apply list_elem_of_fmap_2 |]. }
  assert (Hres : result = st3).
  { unfold result, parseConnectedBlocks. fold st0.
    replace (before ++ first :: between ++ second :: after)
      with ((before ++ first :: between) ++ second :: after)
      by (by rewrite <- app_assoc).
    rewrite Hloop1. simpl.
    rewrite (round_duplicate visitor second st1 k node) by done.
    fold st2. specialize (Hloop3 []). by rewrite app_nil_r in Hloop3. }
  split; [| split].
  - rewrite Hres, He3. unfold st2. simpl. unfold push. by rewrite He1.
  - rewrite Hres, Hkept3.
    + unfold st2. by rewrite slot_pushError.
    + intros b Hin Heq.
      destruct (Hothers b) as (k' & node' & Hne & [Hn _]); [list_membership |].
      apply Hne, kindName_inj. congruence.
  - intros b k' node' Hin Hto. rewrite Hres.
    assert (Hb : b ∈ before ++ between \/ b ∈ after) by list_membership.
    destruct Hb as [Hb | Hb]; [| by apply (Hstored3 b)].
    rewrite Hkept3.
    + unfold st2. rewrite slot_pushError. apply (Hstored1 b); [list_membership | done].
    + intros b' Hin' Heq.
      assert (Hname : html.name b' ∈ html.name <$> after)
        by by apply list_elem_of_fmap_2.
      destruct Hto as [Hn _]. rewrite Heq, <- Hn in Hname.
      apply elem_of_app in Hb as [Hb | Hb].
      * apply (Hdis1 (html.name b)); [by apply list_elem_of_fmap_2 |].
        list_membership.
      * by apply (Hdis2 (html.name b)); [apply list_elem_of_fmap_2 |].
Qed.

End ConnectedBlockClaims.

(** ** The triggers of the primary block *)

Section TriggerClaims.
Context {Span Node R3Node Visitor Trigger BindingParser : Type}.
Context {imports : Imports Span Node R3Node Visitor Trigger BindingParser}.
Implicit Types (param : html.BlockParameter Span) (bindingParser : BindingParser).
Implicit Types (placeholder : option (t.DeferredBlockPlaceholder Span R3Node)).
Implicit Types (st : PrimaryTriggers Span Trigger) (errs : list (ParseError Span)).

(** C7, as the code has it.  A parameter whose expression none of the four
    trigger patterns [/^when\s/], [/^on\s/], [/^prefetch\s+when\s/] and
    [/^prefetch\s+on\s/] matches: the dispatcher appends exactly one
    diagnostic, [Unrecognized trigger], at the span of the parameter,
    leaves both trigger sets as they are, and goes on with the remaining
    parameters.  (An expression without one of the four prefixes that end
    in one space can still match a pattern, and is then a trigger.) *)
Theorem unrecognized_trigger bindingParser placeholder param rest st :
  test WHEN_PARAMETER_PATTERN (html.expression param) = false ->
  test ON_PARAMETER_PATTERN (html.expression param) = false ->
  test PREFETCH_WHEN_PATTERN (html.expression param) = false ->
  test PREFETCH_ON_PATTERN (html.expression param) = false ->
  parsePrimaryTriggers_loop bindingParser placeholder (param :: rest) st =
  parsePrimaryTriggers_loop bindingParser placeholder rest
    {| triggers := triggers st;
       prefetchTriggers := prefetchTriggers st;
       triggerErrors :=
         triggerErrors st ++
         [Build_ParseError (html.sourceSpan param) (str "Unrecognized trigger")] |}.
Proof.
  intros Hwhen Hon Hpwhen Hpon. simpl. unfold parsePrimaryTrigger.
  by rewrite Hwhen, Hon, Hpwhen, Hpon.
Qed.

(** The four buckets of the dispatcher, in the order of the source. *)
Lemma dispatch_when bindingParser placeholder param st :
  test WHEN_PARAMETER_PATTERN (html.expression param) = true ->
  parsePrimaryTrigger bindingParser placeholder param st =
    (r ← parseWhenTrigger param bindingParser (triggers st) (triggerErrors st);
     Normal {| triggers := r.1; prefetchTriggers := prefetchTriggers st;
               triggerErrors := r.2 |}).
Proof. intros H. unfold parsePrimaryTrigger. by rewrite H. Qed.

Lemma dispatch_on bindingParser placeholder param st :
  test WHEN_PARAMETER_PATTERN (html.expression param) = false ->
  test ON_PARAMETER_PATTERN (html.expression param) = true ->
  parsePrimaryTrigger bindingParser placeholder param st =
    (r ← parseOnTrigger param (triggers st) (triggerErrors st) placeholder;
     Normal {| triggers := r.1; prefetchTriggers := prefetchTriggers st;
               triggerErrors := r.2 |}).
Proof. intros H1 H2. unfold parsePrimaryTrigger. by rewrite H1, H2. Qed.

Lemma dispatch_prefetch_when bindingParser placeholder param st :
  test WHEN_PARAMETER_PATTERN (html.expression param) = false ->
  test ON_PARAMETER_PATTERN (html.expression param) = false ->
  test PREFETCH_WHEN_PATTERN (html.expression param) = true ->
  parsePrimaryTrigger bindingParser placeholder param st =
    (r ← parseWhenTrigger param bindingParser (prefetchTriggers st) (triggerErrors st);
     Normal {| triggers := triggers st; prefetchTriggers := r.1;
               triggerErrors := r.2 |}).
Proof. intros H1 H2 H3. unfold parsePrimaryTrigger. by rewrite H1, H2, H3. Qed.

Lemma dispatch_prefetch_on bindingParser placeholder param st :
  test WHEN_PARAMETER_PATTERN (html.expression param) = false ->
  test ON_PARAMETER_PATTERN (html.expression param) = false ->
  test PREFETCH_WHEN_PATTERN (html.expression param) = false ->
  test PREFETCH_ON_PATTERN (html.expression param) = true ->
  parsePrimaryTrigger bindingParser placeholder param st =
    (r ← parseOnTrigger param (prefetchTriggers st) (triggerErrors st) placeholder;
     Normal {| triggers := triggers st; prefetchTriggers := r.1;
               triggerErrors := r.2 |}).
Proof.
  intros H1 H2 H3 H4. unfold parsePrimaryTrigger. by rewrite H1, H2, H3, H4.
Qed.

(** C6.  The parameters [when x > 0], [on idle], [prefetch when y] and
    [prefetch on hover], with collaborators that accept them and register
    one key each (the key of the conditional trigger for the first and
    the third, the keys of idle and of hover for the other two): the
    immediate set holds the conditional and the idle entry, the prefetch
    set the conditional and the hover entry, no diagnostic is added, and
    each of the four expressions is matched by exactly one of the four
    patterns. *)
Theorem primary_triggers_dispatch bindingParser placeholder errs
    (p1 p2 p3 p4 : html.BlockParameter Span)
    (whenKey idleKey hoverKey : jsstring) (v1 v2 v3 v4 : Trigger) :
  html.expression p1 = str "when x > 0" ->
  html.expression p2 = str "on idle" ->
  html.expression p3 = str "prefetch when y" ->
  html.expression p4 = str "prefetch on hover" ->
  (forall (T : gmap jsstring Trigger) E, T !! whenKey = None ->
     parseWhenTrigger p1 bindingParser T E = Normal (<[whenKey := v1]> T, E)) ->
  (forall (T : gmap jsstring Trigger) E, T !! idleKey = None ->
     parseOnTrigger p2 T E placeholder = Normal (<[idleKey := v2]> T, E)) ->
  (forall (T : gmap jsstring Trigger) E, T !! whenKey = None ->
     parseWhenTrigger p3 bindingParser T E = Normal (<[whenKey := v3]> T, E)) ->
  (forall (T : gmap jsstring Trigger) E, T !! hoverKey = None ->
     parseOnTrigger p4 T E placeholder = Normal (<[hoverKey := v4]> T, E)) ->
  whenKey <> idleKey ->
  whenKey <> hoverKey ->
  parsePrimaryTriggers [p1; p2; p3; p4] bindingParser errs placeholder =
    Normal {| triggers := <[idleKey := v2]> {[whenKey := v1]};
              prefetchTriggers := <[hoverKey := v4]> {[whenKey := v3]};
              triggerErrors := errs |} /\
  (fun pattern => test pattern (html.expression p1)) <$> triggerPatterns =
    [true; false; false; false] /\
  (fun pattern => test pattern (html.expression p2)) <$> triggerPatterns =
    [false; true; false; false] /\
  (fun pattern => test pattern (html.expression p3)) <$> triggerPatterns =
    [false; false; true; false] /\
  (fun pattern => test pattern (html.expression p4)) <$> triggerPatterns =
    [false; false; false; true].
Proof.
  intros He1 He2 He3 He4 H1 H2 H3 H4 Hidle Hhover. split.
  - unfold parsePrimaryTriggers. cbn [parsePrimaryTriggers_loop].
    rewrite dispatch_when by (by rewrite He1).
    cbn [triggers prefetchTriggers triggerErrors].
    rewrite H1 by apply lookup_empty. cbn [mbind Completion_bind fst snd].
    rewrite dispatch_on by (by rewrite He2).
    cbn [triggers prefetchTriggers triggerErrors].
    rewrite H2 by (by rewrite lookup_insert_ne). cbn [mbind Completion_bind fst snd].
    rewrite dispatch_prefetch_when by (by rewrite He3).
    cbn [triggers prefetchTriggers triggerErrors].
    rewrite H3 by apply lookup_empty. cbn [mbind Completion_bind fst snd].
    rewrite dispatch_prefetch_on by (by rewrite He4).
    cbn [triggers prefetchTriggers triggerErrors].
    rewrite H4 by (by rewrite lookup_insert_ne). done.
  - rewrite He1, He2, He3, He4. by vm_compute.
Qed.

(** The dispatcher returns when the two trigger parsers return. *)
Lemma parsePrimaryTriggers_loop_returns bindingParser placeholder
    (params : list (html.BlockParameter Span)) st :
  (forall param bp T E, exists r, parseWhenTrigger param bp T E = Normal r) ->
  (forall param T E ph, exists r, parseOnTrigger param T E ph = Normal r) ->
  exists st', parsePrimaryTriggers_loop bindingParser placeholder params st = Normal st'.
Proof.
  intros Hwhen Hon. revert st.
  induction params as [| param params IH]; intros st; simpl; [by eexists |].
  unfold parsePrimaryTrigger.
  repeat match goal with
         | |- context [test ?r ?s] => destruct (test r s)
         end;
    try (apply IH);
    match goal with
    | |- context [parseWhenTrigger ?p ?bp ?T ?E] =>
        destruct (Hwhen p bp T E) as [r ->]; apply IH
    | |- context [parseOnTrigger ?p ?T ?E ?ph] =>
        destruct (Hon p T E ph) as [r ->]; apply IH
    end.
Qed.


End TriggerClaims.

(** ** The parser at work

    The properties above, at concrete templates and with the collaborators
    [spec_imports]. *)

(** [minimum 100ms] on a placeholder block: [minimumTime] is 100 and there
    is no diagnostic. *)
Example placeholder_minimum_once :
  parseConnectedBlocks (imports := spec_imports)
    [block "placeholder" ["minimum 100ms"] 10] [] tt =
  {| placeholder :=
       Some (t.Build_DeferredBlockPlaceholder [str "placeholder"] (Some 100%Z) 10 10 10);
     loading := None; error := None; errors := [] |}.
Proof. reflexivity. Qed.

(** C1, as the spec has it, fails.  On a placeholder block with the
    parameters [minimum 100ms] and [minimum 100ms], where the duration
    parses to 100, the classifier leaves the placeholder slot [null]: it
    is not the case that one diagnostic is recorded and a placeholder node
    with [minimumTime = 100] is produced. *)
Lemma placeholder_minimum_twice_retains_nothing :
  let result :=
    parseConnectedBlocks (imports := spec_imports)
      [block "placeholder" ["minimum 100ms"; "minimum 100ms"] 10] [] tt in
  spec_parseDeferredTime
    (slice (str "minimum 100ms") (spec_getTriggerParametersStart (str "minimum 100ms")))
    = Some 100%Z /\
  placeholder result = None /\
  ~ (errors result =
       [Build_ParseError 10
          (str "@placeholder block can only have one " ++
           dquote ++ str "minimum" ++ dquote ++ str " parameter")] /\
     exists node,
       placeholder result = Some node /\
       t.placeholder_minimumTime node = Some 100%Z).
Proof.
  split; [reflexivity |]. split; [reflexivity |].
  intros [_ (node & Hnode & _)]. discriminate Hnode.
Qed.

(** C1, as the code has it, on [minimum 100ms] given twice. *)
Lemma placeholder_minimum_twice_witness :
  parseConnectedBlocks (imports := spec_imports)
    [block "placeholder" ["minimum 100ms"; "minimum 100ms"] 10] [] tt =
  {| placeholder := None; loading := None; error := None;
     errors :=
       [Build_ParseError 10
          (str "@placeholder block can only have one " ++
           dquote ++ str "minimum" ++ dquote ++ str " parameter")] |}.
Proof.
  apply (placeholder_minimum_twice (imports := spec_imports) tt
           (block "placeholder" ["minimum 100ms"; "minimum 100ms"] 10)
           {| html.expression := str "minimum 100ms"; html.sourceSpan := 11 |}
           {| html.expression := str "minimum 100ms"; html.sourceSpan := 12 |}
           [] [] 8%Z 100%Z);
    reflexivity.
Defined.

(** C2 on a valid placeholder, a block named [unknown-block] and a valid
    loading block. *)
Lemma unrecognized_block_stops_classification_witness :
  parseLoadingBlock (imports := spec_imports) (block "loading" ["after 3ms"] 30) tt =
    Normal (t.Build_DeferredBlockLoading [str "loading"] (Some 3%Z) None 30 30 30) /\
  parseConnectedBlocks (imports := spec_imports)
    [block "placeholder" ["minimum 100ms"] 10;
     block "unknown-block" [] 20;
     block "loading" ["after 3ms"] 30] [] tt =
  {| placeholder :=
       Some (t.Build_DeferredBlockPlaceholder [str "placeholder"] (Some 100%Z) 10 10 10);
     loading := None; error := None;
     errors :=
       [Build_ParseError 20
          (str "Unrecognized block " ++ dquote ++ str "@unknown-block" ++ dquote)] |}.
Proof.
  split; [reflexivity |].
  apply (unrecognized_block_stops_classification (imports := spec_imports) tt
           (block "placeholder" ["minimum 100ms"] 10)
           (block "unknown-block" [] 20)
           [block "loading" ["after 3ms"] 30]);
    reflexivity.
Defined.

(** C3 on a loading block, two placeholders and an error block: the error
    block, which comes after the second placeholder, is stored. *)
Lemma duplicate_connected_block_witness :
  let result :=
    parseConnectedBlocks (imports := spec_imports)
      [block "loading" ["after 3ms"] 10;
       block "placeholder" ["minimum 100ms"] 20;
       block "placeholder" ["minimum 5ms"] 30;
       block "error" [] 40] [] tt in
  errors result =
    [Build_ParseError 30 (str "@defer block can only have one @placeholder block")] /\
  placeholder result =
    Some (t.Build_DeferredBlockPlaceholder [str "placeholder"] (Some 100%Z) 20 20 20) /\
  error result = Some (t.Build_DeferredBlockError [str "error"] 40 40 40).
Proof.
  destruct (duplicate_connected_block (imports := spec_imports) tt placeholderKind
              (block "placeholder" ["minimum 100ms"] 20)
              (block "placeholder" ["minimum 5ms"] 30)
              (PlaceholderNode
                 (t.Build_DeferredBlockPlaceholder [str "placeholder"] (Some 100%Z) 20 20 20))
              [block "loading" ["after 3ms"] 10] []
              [block "error" [] 40] [])
    as (Herrors & Hkept & Hothers).
  - split; reflexivity.
  - reflexivity.
  - intros b Hin. apply elem_of_cons in Hin as [-> | Hin].
    + exists loadingKind. eexists. split; [discriminate |]. split; reflexivity.
    + apply elem_of_cons in Hin as [-> | Hin].
      * exists errorKind. eexists. split; [discriminate |]. split; reflexivity.
      * by apply elem_of_nil in Hin.
  - apply (bool_decide_unpack _). vm_compute. exact I.
  - split; [exact Herrors |]. split; reflexivity.
Defined.

(** C4 on the order error, placeholder, loading. *)
Lemma one_of_each_connected_block_witness :
  let result :=
    parseConnectedBlocks (imports := spec_imports)
      [block "error" [] 10;
       block "placeholder" ["minimum 100ms"] 20;
       block "loading" ["minimum 2ms"; "after 3ms"] 30] [] tt in
  is_Some (placeholder result) /\
  is_Some (loading result) /\
  is_Some (error result) /\
  errors result = [].
Proof.
  destruct (one_of_each_connected_block (imports := spec_imports) tt
              [block "error" [] 10;
               block "placeholder" ["minimum 100ms"] 20;
               block "loading" ["minimum 2ms"; "after 3ms"] 30] [])
    as (Hp & Hl & He & Herrors & _).
  - apply (bool_decide_unpack _). vm_compute. exact I.
  - intros b Hin. apply elem_of_cons in Hin as [-> | Hin].
    + exists errorKind. eexists. split; reflexivity.
    + apply elem_of_cons in Hin as [-> | Hin].
      * exists placeholderKind. eexists. split; reflexivity.
      * apply elem_of_cons in Hin as [-> | Hin].
        -- exists loadingKind. eexists. split; reflexivity.
        -- by apply elem_of_nil in Hin.
  - exact (conj Hp (conj Hl (conj He Herrors))).
Defined.

(** C5 on an error block with the parameter [minimum 10ms]. *)
Lemma error_block_with_parameters_witness :
  parseConnectedBlocks (imports := spec_imports)
    [block "error" ["minimum 10ms"] 10] [] tt =
  {| placeholder := None; loading := None; error := None;
     errors := [Build_ParseError 10 (str "@error block cannot have parameters")] |}.
Proof.
  apply (error_block_with_parameters (imports := spec_imports) tt
           (block "error" ["minimum 10ms"] 10) []);
    [reflexivity | discriminate].
Defined.

(** C9 on a placeholder with the parameter [unknown] followed by a valid
    placeholder, and on a loading block with the parameter [after soon]
    followed by a valid loading block. *)
Lemma failed_block_leaves_slot_empty_witness :
  (let result :=
     parseConnectedBlocks (imports := spec_imports)
       [block "placeholder" ["unknown"] 10;
        block "placeholder" ["minimum 100ms"] 20] [] tt in
   slot result placeholderKind =
     Some (PlaceholderNode
             (t.Build_DeferredBlockPlaceholder [str "placeholder"] (Some 100%Z)
                20 20 20)) /\
   errors result =
     [Build_ParseError 10
        (str "Unrecognized parameter in @placeholder block: " ++
         dquote ++ str "unknown" ++ dquote)]) /\
  (let result :=
     parseConnectedBlocks (imports := spec_imports)
       [block "loading" ["after soon"] 10;
        block "loading" ["after 3ms"] 20] [] tt in
   slot result loadingKind =
     Some (LoadingNode
             (t.Build_DeferredBlockLoading [str "loading"] (Some 3%Z) None 20 20 20)) /\
   errors result =
     [Build_ParseError 10
        (str "Could not parse time value of parameter " ++
         dquote ++ str "after" ++ dquote)]).
Proof.
  split.
  - destruct (failed_block_leaves_slot_empty (imports := spec_imports) tt
                placeholderKind
                (block "placeholder" ["unknown"] 10)
                (block "placeholder" ["minimum 100ms"] 20)
                (str "Unrecognized parameter in @placeholder block: " ++
                 dquote ++ str "unknown" ++ dquote)
                (PlaceholderNode
                   (t.Build_DeferredBlockPlaceholder [str "placeholder"] (Some 100%Z)
                      20 20 20))
                [] eq_refl eq_refl eq_refl eq_refl)
      as (Hslot & _ & Herrors).
    split; [exact Hslot | exact Herrors].
  - destruct (failed_block_leaves_slot_empty (imports := spec_imports) tt
                loadingKind
                (block "loading" ["after soon"] 10)
                (block "loading" ["after 3ms"] 20)
                (str "Could not parse time value of parameter " ++
                 dquote ++ str "after" ++ dquote)
                (LoadingNode
                   (t.Build_DeferredBlockLoading [str "loading"] (Some 3%Z) None
                      20 20 20))
                [] eq_refl eq_refl eq_refl eq_refl)
      as (Hslot & _ & Herrors).
    split; [exact Hslot | exact Herrors].
Defined.

(** C6 with trigger parsers that register the keys [when], [idle] and
    [hover]. *)
Lemma primary_triggers_dispatch_witness :
  parsePrimaryTriggers (imports := spec_imports)
    [{| html.expression := str "when x > 0"; html.sourceSpan := 1 |};
     {| html.expression := str "on idle"; html.sourceSpan := 2 |};
     {| html.expression := str "prefetch when y"; html.sourceSpan := 3 |};
     {| html.expression := str "prefetch on hover"; html.sourceSpan := 4 |}]
    tt [] None =
  Normal {| triggers := <[str "idle" := str "on idle"]> {[str "when" := str "when x > 0"]};
            prefetchTriggers :=
              <[str "hover" := str "prefetch on hover"]>
                {[str "when" := str "prefetch when y"]};
            triggerErrors := [] |}.
Proof.
  apply (primary_triggers_dispatch (imports := spec_imports) tt None []
           {| html.expression := str "when x > 0"; html.sourceSpan := 1 |}
           {| html.expression := str "on idle"; html.sourceSpan := 2 |}
           {| html.expression := str "prefetch when y"; html.sourceSpan := 3 |}
           {| html.expression := str "prefetch on hover"; html.sourceSpan := 4 |}
           (str "when") (str "idle") (str "hover")
           (str "when x > 0") (str "on idle")
           (str "prefetch when y") (str "prefetch on hover"));
    try reflexivity; try discriminate.
  - intros T E HT. cbn [parseWhenTrigger spec_imports]. unfold register_trigger.
    rewrite HT. reflexivity.
  - intros T E HT. cbn [parseOnTrigger spec_imports]. unfold register_trigger.
    change (last_word _ _) with (str "idle"). rewrite HT. reflexivity.
  - intros T E HT. cbn [parseWhenTrigger spec_imports]. unfold register_trigger.
    rewrite HT. reflexivity.
  - intros T E HT. cbn [parseOnTrigger spec_imports]. unfold register_trigger.
    change (last_word _ _) with (str "hover"). rewrite HT. reflexivity.
Defined.

(** C7, as the spec has it, fails.  The expression [when], tab, [x]
    starts with none of the four prefixes [when ], [on ], [prefetch when ]
    and [prefetch on ], and yet it is a trigger: the dispatcher hands it to
    the parser of conditional triggers, which registers it in the set of
    immediate triggers, and records no [Unrecognized trigger]. *)
Lemma unrecognized_trigger_literal_prefixes_fail :
  let param :=
    {| html.expression := str "when" ++ 9%N :: str "x"; html.sourceSpan := 1 |} in
  Forall (fun prefix => startsWith prefix (html.expression param) = false)
    literalTriggerPrefixes /\
  test WHEN_PARAMETER_PATTERN (html.expression param) = true /\
  parsePrimaryTriggers (imports := spec_imports) [param] tt [] None =
    Normal {| triggers := {[str "when" := html.expression param]};
              prefetchTriggers := ∅;
              triggerErrors := [] |} /\
  ~ (exists result,
       parsePrimaryTriggers (imports := spec_imports) [param] tt [] None =
         Normal result /\
       triggerErrors result = [Build_ParseError 1 (str "Unrecognized trigger")] /\
       triggers result = ∅ /\
       prefetchTriggers result = ∅).
Proof.
  intros param.
  assert (Hrun : parsePrimaryTriggers (imports := spec_imports) [param] tt [] None =
                 Normal {| triggers := {[str "when" := html.expression param]};
                           prefetchTriggers := ∅;
                           triggerErrors := [] |}) by reflexivity.
  split; [repeat constructor |]. split; [reflexivity |]. split; [exact Hrun |].
  intros (result & Hresult & Herrors & _).
  rewrite Hrun in Hresult. injection Hresult as <-. discriminate Herrors.
Qed.

(** C7 on the parameter [unknown foo]. *)
Lemma unrecognized_trigger_witness :
  parsePrimaryTriggers (imports := spec_imports)
    [{| html.expression := str "unknown foo"; html.sourceSpan := 7 |}] tt [] None =
  Normal {| triggers := ∅; prefetchTriggers := ∅;
            triggerErrors := [Build_ParseError 7 (str "Unrecognized trigger")] |}.
Proof.
  exact (unrecognized_trigger (imports := spec_imports) tt None
           {| html.expression := str "unknown foo"; html.sourceSpan := 7 |} []
           {| triggers := ∅; prefetchTriggers := ∅; triggerErrors := [] |}
           eq_refl eq_refl eq_refl eq_refl).
Defined.


(** * Further properties of the code *)

(** ** The classifier as a whole *)

Section ClassifierAsAWhole.
Context {Span Node R3Node Visitor Trigger BindingParser : Type}.
Context {imports : Imports Span Node R3Node Visitor Trigger BindingParser}.
Implicit Types (block : html.Block Span Node) (visitor : Visitor).
Implicit Types (blocks : list (html.Block Span Node)).
Implicit Types (st : ConnectedBlocks Span R3Node) (k : Kind).
Implicit Types (errs : list (ParseError Span)).

Lemma recognized_kind (name : jsstring) :
  isConnectedDeferLoopBlock name = true -> exists k, name = kindName k.
Proof.
  unfold isConnectedDeferLoopBlock. intros H.
  apply orb_prop in H as [H | H]; [apply orb_prop in H as [H | H] |];
    apply bool_decide_eq_true_1 in H.
  - by exists placeholderKind.
  - by exists loadingKind.
  - by exists errorKind.
Qed.

Lemma Kind_eq_or_ne k1 k2 : k1 = k2 \/ k1 <> k2.
Proof. destruct k1, k2; (by left) || (by right). Qed.

Lemma accepted_other visitor block k k0 :
  html.name block = kindName k0 -> k0 <> k -> accepted visitor k block = None.
Proof.
  intros Hn Hne. unfold accepted. rewrite bool_decide_eq_false_2; [done |].
  rewrite Hn. intros Heq. by apply Hne, kindName_inj.
Qed.

Lemma accepted_same visitor block k :
  html.name block = kindName k ->
  accepted visitor k block =
    match parseKind k block visitor with Normal node => Some node | Throw _ => None end.
Proof. intros Hn. unfold accepted. by rewrite bool_decide_eq_true_2. Qed.

(** What the loop does to one slot, from any state. *)
Lemma loop_slot visitor blocks st k :
  slot (parseConnectedBlocks_loop visitor blocks st) k =
    match slot st k with
    | Some node => Some node
    | None => head (omap (accepted visitor k) (parsedBlocks blocks))
    end.
Proof.
  revert st. induction blocks as [| b blocks IH]; intros st.
  - simpl. by destruct (slot st k).
  - cbn [parseConnectedBlocks_loop parsedBlocks].
    destruct (isConnectedDeferLoopBlock (html.name b)) eqn:Hrec.
    + destruct (recognized_kind _ Hrec) as [k0 Hn].
      cbn [omap list_omap].
      destruct (slot st k0) as [node0 |] eqn:Hs0.
      * rewrite (round_duplicate visitor b st k0 node0) by done.
        rewrite IH, slot_pushError. destruct (slot st k) eqn:Hs; [done |].
        rewrite (accepted_other visitor b k k0); [done | done |].
        intros ->. congruence.
      * destruct (parseKind k0 b visitor) as [node0 | message] eqn:Hp.
        -- destruct (round_store visitor b st k0 node0) as (st1 & -> & Hk & Ho & _);
             [done | done | done |].
           rewrite IH. destruct (Kind_eq_or_ne k k0) as [-> | Hne].
           ++ by rewrite Hk, Hs0, accepted_same, Hp.
           ++ rewrite Ho by done. by rewrite (accepted_other visitor b k k0).
        -- rewrite (round_throw visitor b st k0 message) by done.
           rewrite IH, slot_pushError.
           destruct (Kind_eq_or_ne k k0) as [-> | Hne].
           ++ by rewrite accepted_same, Hp.
           ++ by rewrite (accepted_other visitor b k k0).
    + rewrite round_unrecognized by done. rewrite slot_pushError.
      by destruct (slot st k).
Qed.

(** X1.  The classifier as a function of its input: the slot of each kind
    holds the node of the first block of that kind that its sub-parser
    accepts, among the blocks before the first block of an unrecognized
    name; it is [null] when there is no such block. *)
Theorem connected_slot_first_accepted visitor blocks errs k :
  slot (parseConnectedBlocks blocks errs visitor) k =
    head (omap (accepted visitor k) (parsedBlocks blocks)).
Proof.
  unfold parseConnectedBlocks. rewrite loop_slot. by destruct k.
Qed.

Lemma filledSlots_pushError st e : filledSlots (pushError st e) = filledSlots st.
Proof. done. Qed.

Lemma filledSlots_store st st' k node :
  slot st k = None -> slot st' k = Some node ->
  (forall k', k' <> k -> slot st' k' = slot st k') ->
  filledSlots st' = S (filledSlots st).
Proof.
  intros Hs Hs' Ho. unfold filledSlots.
  destruct k; cbn [omap list_omap]; rewrite Hs, Hs'.
  - rewrite (Ho loadingKind), (Ho errorKind) by done. done.
  - rewrite (Ho placeholderKind), (Ho errorKind) by done.
    by destruct (slot st placeholderKind).
  - rewrite (Ho placeholderKind), (Ho loadingKind) by done.
    by destruct (slot st placeholderKind), (slot st loadingKind).
Qed.

Lemma loop_count visitor blocks st :
  length (errors (parseConnectedBlocks_loop visitor blocks st)) +
  filledSlots (parseConnectedBlocks_loop visitor blocks st) =
  length (errors st) + filledSlots st + rounds blocks.
Proof.
  revert st. induction blocks as [| b blocks IH]; intros st.
  - simpl. lia.
  - cbn [parseConnectedBlocks_loop rounds].
    destruct (isConnectedDeferLoopBlock (html.name b)) eqn:Hrec.
    + destruct (recognized_kind _ Hrec) as [k0 Hn].
      destruct (slot st k0) as [node0 |] eqn:Hs0.
      * rewrite (round_duplicate visitor b st k0 node0) by done.
        rewrite IH, filledSlots_pushError. simpl. unfold push.
        rewrite length_app. simpl. lia.
      * destruct (parseKind k0 b visitor) as [node0 | message] eqn:Hp.
        -- destruct (round_store visitor b st k0 node0) as (st1 & -> & Hk & Ho & He);
             [done | done | done |].
           rewrite IH, He, (filledSlots_store st st1 k0 node0) by done. lia.
        -- rewrite (round_throw visitor b st k0 message) by done.
           rewrite IH, filledSlots_pushError. simpl. unfold push.
           rewrite length_app. simpl. lia.
    + rewrite round_unrecognized by done. rewrite filledSlots_pushError.
      simpl. unfold push. rewrite length_app. simpl. lia.
Qed.

(** X2.  Every round of the classifier either fills a slot or records
    exactly one diagnostic, never both and never neither: the diagnostics
    added and the slots filled add up to the number of rounds, which is the
    number of blocks up to and including the first one of an unrecognized
    name.  In particular at most one diagnostic is recorded per block. *)
Theorem connected_diagnostics_count visitor blocks errs :
  let result := parseConnectedBlocks blocks errs visitor in
  length (errors result) + filledSlots result = length errs + rounds blocks /\
  rounds blocks <= length blocks /\
  filledSlots result <= 3.
Proof.
  intros result. split; [| split].
  - unfold result, parseConnectedBlocks. rewrite loop_count.
    change (filledSlots _) with 0. simpl. lia.
  - clear result. induction blocks as [| b blocks IH]; simpl; [lia |].
    destruct (isConnectedDeferLoopBlock (html.name b)); lia.
  - unfold filledSlots. cbn [omap list_omap].
    destruct (slot result placeholderKind), (slot result loadingKind),
      (slot result errorKind); simpl; lia.
Qed.

Lemma slot_prependErrors st before k : slot (prependErrors before st) k = slot st k.
Proof. by destruct k. Qed.

Lemma pushError_prependErrors st before e :
  pushError (prependErrors before st) e = prependErrors before (pushError st e).
Proof. unfold pushError, prependErrors, push. simpl. by rewrite app_assoc. Qed.

Lemma round_prependErrors visitor block st before :
  parseConnectedBlock visitor block (prependErrors before st) =
    ((parseConnectedBlock visitor block st).1,
     prependErrors before (parseConnectedBlock visitor block st).2).
Proof.
  destruct (isConnectedDeferLoopBlock (html.name block)) eqn:Hrec.
  - destruct (recognized_kind _ Hrec) as [k0 Hn].
    destruct (slot st k0) as [node0 |] eqn:Hs0.
    + rewrite (round_duplicate visitor block st k0 node0) by done.
      rewrite (round_duplicate visitor block _ k0 node0)
        by (by rewrite ?slot_prependErrors).
      by rewrite pushError_prependErrors.
    + destruct (parseKind k0 block visitor) as [node0 | message] eqn:Hp.
      * destruct (round_store visitor block st k0 node0)
          as (st1 & -> & Hk1 & Ho1 & He1); [done | done | done |].
        destruct (round_store visitor block (prependErrors before st) k0 node0)
          as (st2 & -> & Hk2 & Ho2 & He2);
          [done | by rewrite slot_prependErrors | done |].
        simpl. f_equal. apply ConnectedBlocks_eq.
        -- intros k. rewrite slot_prependErrors.
           destruct (Kind_eq_or_ne k k0) as [-> | Hne]; [congruence |].
           by rewrite Ho1, Ho2, slot_prependErrors.
        -- rewrite He2. simpl. by rewrite He1.
      * rewrite (round_throw visitor block st k0 message) by done.
        rewrite (round_throw visitor block _ k0 message)
          by (by rewrite ?slot_prependErrors).
        by rewrite pushError_prependErrors.
  - rewrite !round_unrecognized by done. by rewrite pushError_prependErrors.
Qed.

Lemma loop_prependErrors visitor blocks st before :
  parseConnectedBlocks_loop visitor blocks (prependErrors before st) =
  prependErrors before (parseConnectedBlocks_loop visitor blocks st).
Proof.
  revert st. induction blocks as [| b blocks IH]; intros st; [done |].
  cbn [parseConnectedBlocks_loop]. rewrite round_prependErrors.
  destruct (parseConnectedBlock visitor b st) as [[|] st']; simpl; [apply IH | done].
Qed.

(** X3.  The classifier only ever appends to the list of diagnostics it is
    given, and what it does never depends on that list: run on the
    diagnostics [errs] it fills the slots as it does on the empty list, and
    its diagnostics are [errs] followed by those of the run on the empty
    list. *)
Theorem connected_errors_appended visitor blocks errs :
  parseConnectedBlocks blocks errs visitor =
  prependErrors errs (parseConnectedBlocks blocks [] visitor).
Proof.
  unfold parseConnectedBlocks. rewrite <- loop_prependErrors.
  unfold prependErrors. simpl. by rewrite app_nil_r.
Qed.

(** X4.  What follows a block of an unrecognized name is never looked at:
    the classifier gives the same result when everything after that block
    is cut off, whatever it is. *)
Theorem blocks_after_unrecognized_ignored visitor blocks unknown rest errs :
  isConnectedDeferLoopBlock (html.name unknown) = false ->
  parseConnectedBlocks (blocks ++ unknown :: rest) errs visitor =
  parseConnectedBlocks (blocks ++ [unknown]) errs visitor.
Proof.
  intros Hunknown. unfold parseConnectedBlocks.
  generalize ({| placeholder := None; loading := None; error := None;
                 errors := errs |} : ConnectedBlocks Span R3Node).
  induction blocks as [| b blocks IH]; intros st.
  - simpl. by rewrite round_unrecognized.
  - simpl. destruct (parseConnectedBlock visitor b st) as [[|] st']; [apply IH | done].
Qed.

End ClassifierAsAWhole.

(** ** The sub-parsers as a whole *)

(** No expression is both an [after] and a [minimum] parameter. *)
Lemma after_minimum_exclusive (s : jsstring) :
  test AFTER_PARAMETER_PATTERN s = true -> test MINIMUM_PARAMETER_PATTERN s = false.
Proof.
  intros Ha. destruct (test MINIMUM_PARAMETER_PATTERN s) eqn:Hm; [| done].
  apply test_keyword in Ha as (c1 & rest1 & -> & _).
  apply test_keyword in Hm as (c2 & rest2 & Heq & _).
  discriminate Heq.
Qed.

Section SubParsersAsAWhole.
Context {Span Node R3Node Visitor Trigger BindingParser : Type}.
Context {imports : Imports Span Node R3Node Visitor Trigger BindingParser}.
Implicit Types (ast : html.Block Span Node) (visitor : Visitor).
Implicit Types (param : html.BlockParameter Span).
Implicit Types (params : list (html.BlockParameter Span)).

(** X5.  When [parsePlaceholderBlock] returns and when it does not: it
    returns exactly when the visitor returns and the block has either no
    parameter, and then [minimumTime] is [null], or one single parameter,
    a [minimum] parameter whose duration parses, and then [minimumTime] is
    that duration.  The children are what the visitor returns and the
    three spans are those of the block. *)
Theorem placeholder_block_accepted_iff ast visitor
    (node : t.DeferredBlockPlaceholder Span R3Node) :
  parsePlaceholderBlock ast visitor = Normal node <->
  exists visited minimumTime,
    visitAll visitor (html.children ast) (html.children ast) = Normal visited /\
    node = t.Build_DeferredBlockPlaceholder visited minimumTime
             (html.blockSourceSpan ast) (html.startSourceSpan ast)
             (html.endSourceSpan ast) /\
    ((html.parameters ast = [] /\ minimumTime = None) \/
     (exists param start time,
        html.parameters ast = [param] /\
        test MINIMUM_PARAMETER_PATTERN (html.expression param) = true /\
        getTriggerParametersStart (html.expression param) = Normal start /\
        parseDeferredTime (slice (html.expression param) start) = Normal (Some time) /\
        minimumTime = Some time)).
Proof.
  unfold parsePlaceholderBlock. split.
  - destruct (html.parameters ast) as [| p1 [| p2 rest]]; simpl.
    + destruct (visitAll visitor _ _) as [visited |]; simpl; [| done].
      intros [= <-]. exists visited, None. split; [done |]. split; [done |].
      by left.
    + destruct (test MINIMUM_PARAMETER_PATTERN (html.expression p1)) eqn:Hm; [| done].
      destruct (getTriggerParametersStart (html.expression p1)) as [start |] eqn:Hs;
        simpl; [| done].
      destruct (parseDeferredTime (slice (html.expression p1) start))
        as [[time |] |] eqn:Ht; simpl; [| done | done].
      destruct (visitAll visitor _ _) as [visited |]; simpl; [| done].
      intros [= <-]. exists visited, (Some time). split; [done |]. split; [done |].
      right. by exists p1, start, time.
    + destruct (test MINIMUM_PARAMETER_PATTERN (html.expression p1)); [| done].
      destruct (getTriggerParametersStart (html.expression p1)) as [start |];
        simpl; [| done].
      destruct (parseDeferredTime (slice (html.expression p1) start))
        as [[time |] |]; simpl; [| done | done].
      by destruct (test MINIMUM_PARAMETER_PATTERN (html.expression p2)).
  - intros (visited & minimumTime & Hv & -> & [[-> ->] | Hone]).
    + simpl. by rewrite Hv.
    + destruct Hone as (param & start & time & -> & Hm & Hs & Ht & ->).
      simpl. rewrite Hm, Hs. simpl. rewrite Ht. simpl. by rewrite Hv.
Qed.

(** X6.  [parseErrorBlock] returns exactly when the block has no
    parameter and the visitor returns; the node then holds what the
    visitor returns and the three spans of the block. *)
Theorem error_block_accepted_iff ast visitor (node : t.DeferredBlockError Span R3Node) :
  parseErrorBlock ast visitor = Normal node <->
  html.parameters ast = [] /\
  exists visited,
    visitAll visitor (html.children ast) (html.children ast) = Normal visited /\
    node = t.Build_DeferredBlockError visited
             (html.blockSourceSpan ast) (html.startSourceSpan ast)
             (html.endSourceSpan ast).
Proof.
  unfold parseErrorBlock. split.
  - destruct (html.parameters ast); simpl; [| done].
    destruct (visitAll visitor _ _) as [visited |]; simpl; [| done].
    intros [= <-]. split; [done |]. by exists visited.
  - intros (-> & visited & Hv & ->). simpl. by rewrite Hv.
Qed.

Lemma countMatching_cons (pattern : regex) param params :
  countMatching pattern (param :: params) =
  (if test pattern (html.expression param) then 1 else 0) + countMatching pattern params.
Proof.
  unfold countMatching. simpl.
  by destruct (test pattern (html.expression param)).
Qed.

(** What the loop of [parseLoadingBlock] has seen when it returns. *)
Lemma parseLoadingParameters_shape params (afterTime minimumTime after' minimum' : option Z) :
  parseLoadingParameters params afterTime minimumTime = Normal (after', minimum') ->
  Forall (fun param =>
            test AFTER_PARAMETER_PATTERN (html.expression param) = true \/
            test MINIMUM_PARAMETER_PATTERN (html.expression param) = true) params /\
  (if afterTime is Some _ then 1 else 0) + countMatching AFTER_PARAMETER_PATTERN params =
    (if after' is Some _ then 1 else 0) /\
  (if minimumTime is Some _ then 1 else 0) + countMatching MINIMUM_PARAMETER_PATTERN params =
    (if minimum' is Some _ then 1 else 0).
Proof.
  revert afterTime minimumTime.
  induction params as [| p params IH]; intros afterTime minimumTime; simpl.
  - intros [= <- <-]. split; [constructor |]. unfold countMatching. simpl. lia.
  - rewrite !countMatching_cons.
    destruct (test AFTER_PARAMETER_PATTERN (html.expression p)) eqn:Ha.
    + rewrite (after_minimum_exclusive _ Ha).
      destruct afterTime; [done |].
      destruct (getTriggerParametersStart (html.expression p)) as [start |];
        simpl; [| done].
      destruct (parseDeferredTime (slice (html.expression p) start))
        as [[time |] |]; simpl; [| done | done].
      intros Hrest. apply IH in Hrest as (Hall & Hafter & Hminimum).
      split; [constructor; auto |]. simpl in *. lia.
    + destruct (test MINIMUM_PARAMETER_PATTERN (html.expression p)) eqn:Hm; [| done].
      destruct minimumTime; [done |].
      destruct (getTriggerParametersStart (html.expression p)) as [start |];
        simpl; [| done].
      destruct (parseDeferredTime (slice (html.expression p) start))
        as [[time |] |]; simpl; [| done | done].
      intros Hrest. apply IH in Hrest as (Hall & Hafter & Hminimum).
      split; [constructor; auto |]. simpl in *. lia.
Qed.

Lemma length_after_minimum params :
  Forall (fun param =>
            test AFTER_PARAMETER_PATTERN (html.expression param) = true \/
            test MINIMUM_PARAMETER_PATTERN (html.expression param) = true) params ->
  length params =
    countMatching AFTER_PARAMETER_PATTERN params +
    countMatching MINIMUM_PARAMETER_PATTERN params.
Proof.
  induction 1 as [| p params Hp _ IH]; [done |].
  rewrite !countMatching_cons. simpl. rewrite IH.
  destruct (test AFTER_PARAMETER_PATTERN (html.expression p)) eqn:Ha.
  - rewrite (after_minimum_exclusive _ Ha). lia.
  - destruct Hp as [Hp | ->]; [congruence | lia].
Qed.

(** X7.  What a loading block that [parseLoadingBlock] accepts looks like:
    every parameter is an [after] or a [minimum] parameter, there is at
    most one of each, hence at most two parameters, in either order, and
    [afterTime] ([minimumTime]) is a number exactly when the [after] (the
    [minimum]) parameter is there.  A block with a keyword twice, next to
    one another or not, is never accepted. *)
Theorem loading_block_accepted_shape ast visitor
    (node : t.DeferredBlockLoading Span R3Node) :
  parseLoadingBlock ast visitor = Normal node ->
  Forall (fun param =>
            test AFTER_PARAMETER_PATTERN (html.expression param) = true \/
            test MINIMUM_PARAMETER_PATTERN (html.expression param) = true)
    (html.parameters ast) /\
  countMatching AFTER_PARAMETER_PATTERN (html.parameters ast) =
    (if t.loading_afterTime node is Some _ then 1 else 0) /\
  countMatching MINIMUM_PARAMETER_PATTERN (html.parameters ast) =
    (if t.loading_minimumTime node is Some _ then 1 else 0) /\
  length (html.parameters ast) <= 2.
Proof.
  unfold parseLoadingBlock.
  destruct (parseLoadingParameters (html.parameters ast) None None)
    as [[after' minimum'] |] eqn:Hp; simpl; [| done].
  destruct (visitAll visitor _ _) as [visited |]; simpl; [| done].
  intros [= <-]. simpl.
  apply parseLoadingParameters_shape in Hp as (Hall & Hafter & Hminimum).
  split; [done |]. split; [done |]. split; [done |].
  rewrite (length_after_minimum _ Hall).
  destruct after', minimum'; simpl in *; lia.
Qed.

(** X8.  The order of the two parameters of a loading block does not
    matter: [after] before [minimum] and [minimum] before [after] give the
    same two times. *)
Theorem loading_parameters_commute (afterParam minimumParam : html.BlockParameter Span)
    (afterStart minimumStart afterTime minimumTime : Z) :
  test AFTER_PARAMETER_PATTERN (html.expression afterParam) = true ->
  test MINIMUM_PARAMETER_PATTERN (html.expression minimumParam) = true ->
  getTriggerParametersStart (html.expression afterParam) = Normal afterStart ->
  parseDeferredTime (slice (html.expression afterParam) afterStart) =
    Normal (Some afterTime) ->
  getTriggerParametersStart (html.expression minimumParam) = Normal minimumStart ->
  parseDeferredTime (slice (html.expression minimumParam) minimumStart) =
    Normal (Some minimumTime) ->
  parseLoadingParameters [afterParam; minimumParam] None None =
    Normal (Some afterTime, Some minimumTime) /\
  parseLoadingParameters [minimumParam; afterParam] None None =
    Normal (Some afterTime, Some minimumTime).
Proof.
  intros Ha Hm Has Hat Hms Hmt.
  assert (Hma : test AFTER_PARAMETER_PATTERN (html.expression minimumParam) = false).
  { destruct (test AFTER_PARAMETER_PATTERN (html.expression minimumParam)) eqn:H;
      [| done].
    apply after_minimum_exclusive in H. congruence. }
  split; simpl.
  - rewrite Ha, Has. simpl. rewrite Hat. simpl.
    rewrite Hma, Hm, Hms. simpl. by rewrite Hmt.
  - rewrite Hma, Hm, Hms. simpl. rewrite Hmt. simpl.
    rewrite Ha, Has. simpl. by rewrite Hat.
Qed.

Lemma parsePlaceholderParameters_throws params (minimumTime : option Z) message :
  (forall value, exists start, getTriggerParametersStart value = Normal start) ->
  (forall value, exists time, parseDeferredTime value = Normal time) ->
  parsePlaceholderParameters params minimumTime = Throw message ->
  message = str "@placeholder block can only have one " ++
            dquote ++ str "minimum" ++ dquote ++ str " parameter" \/
  message = str "Could not parse time value of parameter " ++
            dquote ++ str "minimum" ++ dquote \/
  exists param,
    param ∈ params /\
    test MINIMUM_PARAMETER_PATTERN (html.expression param) = false /\
    message = str "Unrecognized parameter in @placeholder block: " ++
              dquote ++ html.expression param ++ dquote.
Proof.
  intros Hstart Htime. revert minimumTime.
  induction params as [| p params IH]; intros minimumTime; simpl; [done |].
  destruct (test MINIMUM_PARAMETER_PATTERN (html.expression p)) eqn:Hm.
  - destruct minimumTime; [intros [= <-]; by left |].
    destruct (Hstart (html.expression p)) as [start ->]. simpl.
    destruct (Htime (slice (html.expression p) start)) as [[time |] ->]; simpl.
    + intros Hrest. apply IH in Hrest as [H | [H | (param & Hin & H)]]; auto.
      right. right. exists param. split; [by right | done].
    + intros [= <-]. right. by left.
  - intros [= <-]. right. right. exists p. split; [by left | done].
Qed.

(** X9.  The messages a placeholder block can fail with.  When its
    collaborators do not throw, [parsePlaceholderBlock] throws nothing but
    the complaint about a second [minimum], the complaint about a time
    that does not parse, or the complaint about a parameter of the block
    that is not a [minimum] parameter, quoted in the message. *)
Theorem placeholder_failure_messages ast visitor message :
  (forall value, exists start, getTriggerParametersStart value = Normal start) ->
  (forall value, exists time, parseDeferredTime value = Normal time) ->
  (forall nodes context, exists visited, visitAll visitor nodes context = Normal visited) ->
  parsePlaceholderBlock ast visitor = Throw message ->
  message = str "@placeholder block can only have one " ++
            dquote ++ str "minimum" ++ dquote ++ str " parameter" \/
  message = str "Could not parse time value of parameter " ++
            dquote ++ str "minimum" ++ dquote \/
  exists param,
    param ∈ html.parameters ast /\
    test MINIMUM_PARAMETER_PATTERN (html.expression param) = false /\
    message = str "Unrecognized parameter in @placeholder block: " ++
              dquote ++ html.expression param ++ dquote.
Proof.
  intros Hstart Htime Hvisit. unfold parsePlaceholderBlock.
  destruct (parsePlaceholderParameters (html.parameters ast) None) eqn:Hp; simpl.
  - by destruct (Hvisit (html.children ast) (html.children ast)) as [visited ->].
  - intros [= <-]. by eapply parsePlaceholderParameters_throws.
Qed.

Lemma parseLoadingParameters_throws params (afterTime minimumTime : option Z) message :
  (forall value, exists start, getTriggerParametersStart value = Normal start) ->
  (forall value, exists time, parseDeferredTime value = Normal time) ->
  parseLoadingParameters params afterTime minimumTime = Throw message ->
  (exists keyword,
     keyword ∈ [str "after"; str "minimum"] /\
     (message = str "@loading block can only have one " ++
                dquote ++ keyword ++ dquote ++ str " parameter" \/
      message = str "Could not parse time value of parameter " ++
                dquote ++ keyword ++ dquote)) \/
  exists param,
    param ∈ params /\
    test AFTER_PARAMETER_PATTERN (html.expression param) = false /\
    test MINIMUM_PARAMETER_PATTERN (html.expression param) = false /\
    message = str "Unrecognized parameter in @loading block: " ++
              dquote ++ html.expression param ++ dquote.
Proof.
  intros Hstart Htime. revert afterTime minimumTime.
  induction params as [| p params IH]; intros afterTime minimumTime; simpl; [done |].
  assert (Hrec : forall a m,
            parseLoadingParameters params a m = Throw message ->
            (exists keyword,
               keyword ∈ [str "after"; str "minimum"] /\
               (message = str "@loading block can only have one " ++
                          dquote ++ keyword ++ dquote ++ str " parameter" \/
                message = str "Could not parse time value of parameter " ++
                          dquote ++ keyword ++ dquote)) \/
            exists param,
              param ∈ p :: params /\
              test AFTER_PARAMETER_PATTERN (html.expression param) = false /\
              test MINIMUM_PARAMETER_PATTERN (html.expression param) = false /\
              message = str "Unrecognized parameter in @loading block: " ++
                        dquote ++ html.expression param ++ dquote).
  { intros a m Hrest. apply IH in Hrest as [H | (param & Hin & H)]; [by left |].
    right. exists param. split; [by right | done]. }
  destruct (test AFTER_PARAMETER_PATTERN (html.expression p)) eqn:Ha.
  - destruct afterTime.
    { intros [= <-]. left. exists (str "after"). split; [by left | by left]. }
    destruct (Hstart (html.expression p)) as [start ->]. simpl.
    destruct (Htime (slice (html.expression p) start)) as [[time |] ->]; simpl.
    + apply Hrec.
    + intros [= <-]. left. exists (str "after"). split; [by left | by right].
  - destruct (test MINIMUM_PARAMETER_PATTERN (html.expression p)) eqn:Hm.
    + destruct minimumTime.
      { intros [= <-]. left. exists (str "minimum").
        split; [by right; left | by left]. }
      destruct (Hstart (html.expression p)) as [start ->]. simpl.
      destruct (Htime (slice (html.expression p) start)) as [[time |] ->]; simpl.
      * apply Hrec.
      * intros [= <-]. left. exists (str "minimum").
        split; [by right; left | by right].
    + intros [= <-]. right. exists p. split; [by left | done].
Qed.

(** X10.  The messages a loading block can fail with.  When its
    collaborators do not throw, [parseLoadingBlock] throws nothing but the
    complaint about a second [after] or [minimum], the complaint about the
    time of an [after] or [minimum] that does not parse, or the complaint
    about a parameter of the block that is neither, quoted in the
    message. *)
Theorem loading_failure_messages ast visitor message :
  (forall value, exists start, getTriggerParametersStart value = Normal start) ->
  (forall value, exists time, parseDeferredTime value = Normal time) ->
  (forall nodes context, exists visited, visitAll visitor nodes context = Normal visited) ->
  parseLoadingBlock ast visitor = Throw message ->
  (exists keyword,
     keyword ∈ [str "after"; str "minimum"] /\
     (message = str "@loading block can only have one " ++
                dquote ++ keyword ++ dquote ++ str " parameter" \/
      message = str "Could not parse time value of parameter " ++
                dquote ++ keyword ++ dquote)) \/
  exists param,
    param ∈ html.parameters ast /\
    test AFTER_PARAMETER_PATTERN (html.expression param) = false /\
    test MINIMUM_PARAMETER_PATTERN (html.expression param) = false /\
    message = str "Unrecognized parameter in @loading block: " ++
              dquote ++ html.expression param ++ dquote.
Proof.
  intros Hstart Htime Hvisit. unfold parseLoadingBlock.
  destruct (parseLoadingParameters (html.parameters ast) None None) eqn:Hp; simpl.
  - by destruct (Hvisit (html.children ast) (html.children ast)) as [visited ->].
  - intros [= <-]. by eapply parseLoadingParameters_throws.
Qed.

(** X11.  A visitor that throws inside a connected block does not stop
    the classifier: for a block of any of the three kinds, without
    parameters, whose children the visitor throws on, the message becomes
    the one diagnostic, at the start of the block, and the slot stays
    [null]. *)
Theorem visitor_exception_in_connected_block visitor (block : html.Block Span Node)
    k message errs :
  html.name block = kindName k ->
  html.parameters block = [] ->
  visitAll visitor (html.children block) (html.children block) = Throw message ->
  parseConnectedBlocks [block] errs visitor =
    {| placeholder := None; loading := None; error := None;
       errors := errs ++ [Build_ParseError (html.startSourceSpan block) message] |}.
Proof.
  intros Hname Hparams Hvisit. unfold parseConnectedBlocks. simpl.
  rewrite (round_throw visitor block _ k message); [done | done | by destruct k |].
  destruct k; simpl.
  - unfold parsePlaceholderBlock. rewrite Hparams. simpl. by rewrite Hvisit.
  - unfold parseLoadingBlock. rewrite Hparams. simpl. by rewrite Hvisit.
  - unfold parseErrorBlock. rewrite Hparams. simpl. by rewrite Hvisit.
Qed.

End SubParsersAsAWhole.

(** ** The dispatcher and the entry point as a whole *)

Lemma keyword_needs_white_space (w s : jsstring) :
  Forall (fun c => is_whitespace c = false) s ->
  test (Cat (word w) Space) s = false.
Proof.
  intros Hs. destruct (test (Cat (word w) Space) s) eqn:Ht; [| done].
  apply test_keyword in Ht as (c & rest & -> & Hc).
  apply Forall_app in Hs as [_ Hs]. apply Forall_cons in Hs as [Hc' _]. congruence.
Qed.

Lemma prefetch_needs_white_space (w s : jsstring) :
  Forall (fun c => is_whitespace c = false) s ->
  test (Cat (word (str "prefetch")) (Cat (Plus Space) (Cat (word w) Space))) s = false.
Proof.
  intros Hs.
  destruct (test (Cat (word (str "prefetch")) (Cat (Plus Space) (Cat (word w) Space))) s)
    eqn:Ht; [| done].
  apply test_prefetch_keyword in Ht as (sep & c & rest & -> & _ & _ & Hc).
  apply Forall_app in Hs as [_ Hs]. apply Forall_app in Hs as [_ Hs].
  apply Forall_app in Hs as [_ Hs]. apply Forall_cons in Hs as [Hc' _]. congruence.
Qed.

(** X12.  Every keyword needs white space after it: an expression without
    any white space in it, a bare [when] or [minimum] for one, is matched
    by none of the six patterns of the file. *)
Theorem no_white_space_no_keyword (s : jsstring) :
  Forall (fun c => is_whitespace c = false) s ->
  Forall (fun pattern => test pattern s = false)
    (triggerPatterns ++ [MINIMUM_PARAMETER_PATTERN; AFTER_PARAMETER_PATTERN]).
Proof.
  intros Hs. unfold triggerPatterns. simpl.
  repeat (apply Forall_cons; split);
    [by apply keyword_needs_white_space | by apply keyword_needs_white_space
    | by apply prefetch_needs_white_space | by apply prefetch_needs_white_space
    | by apply keyword_needs_white_space | by apply keyword_needs_white_space
    | apply Forall_nil_2].
Qed.

Section DispatcherAsAWhole.
Context {Span Node R3Node Visitor Trigger BindingParser : Type}.
Context {imports : Imports Span Node R3Node Visitor Trigger BindingParser}.
Implicit Types (ast : html.Block Span Node) (visitor : Visitor).
Implicit Types (param : html.BlockParameter Span) (bindingParser : BindingParser).
Implicit Types (params : list (html.BlockParameter Span)).
Implicit Types (placeholder : option (t.DeferredBlockPlaceholder Span R3Node)).
Implicit Types (st : PrimaryTriggers Span Trigger) (errs : list (ParseError Span)).

Lemma loop_all_unrecognized bindingParser placeholder params st :
  Forall (fun param =>
            Forall (fun pattern => test pattern (html.expression param) = false)
              triggerPatterns) params ->
  parsePrimaryTriggers_loop bindingParser placeholder params st =
    Normal {| triggers := triggers st;
              prefetchTriggers := prefetchTriggers st;
              triggerErrors :=
                triggerErrors st ++
                ((fun param =>
                    Build_ParseError (html.sourceSpan param) (str "Unrecognized trigger"))
                   <$> params) |}.
Proof.
  intros Hall. revert st. induction Hall as [| p params Hp _ IH]; intros st.
  - simpl. rewrite app_nil_r. by destruct st.
  - cbn [parsePrimaryTriggers_loop]. unfold parsePrimaryTrigger.
    unfold triggerPatterns in Hp.
    apply Forall_cons in Hp as [-> Hp]. apply Forall_cons in Hp as [-> Hp].
    apply Forall_cons in Hp as [-> Hp]. apply Forall_cons in Hp as [-> _].
    cbn [mbind Completion_bind]. rewrite IH. simpl. unfold push.
    by rewrite <- app_assoc.
Qed.

(** X13.  A parameter list none of whose parameters is a trigger: the
    dispatcher records one [Unrecognized trigger] per parameter, at the
    span of the parameter and in the order of the list, after the
    diagnostics it is given; both trigger sets stay empty; and no
    collaborator is consulted, so the dispatcher returns whatever the
    collaborators would do. *)
Theorem all_triggers_unrecognized bindingParser placeholder params errs :
  Forall (fun param =>
            Forall (fun pattern => test pattern (html.expression param) = false)
              triggerPatterns) params ->
  parsePrimaryTriggers params bindingParser errs placeholder =
    Normal {| triggers := ∅; prefetchTriggers := ∅;
              triggerErrors :=
                errs ++
                ((fun param =>
                    Build_ParseError (html.sourceSpan param) (str "Unrecognized trigger"))
                   <$> params) |}.
Proof.
  intros Hall. unfold parsePrimaryTriggers. by rewrite loop_all_unrecognized.
Qed.

Lemma loop_immediate_frame bindingParser placeholder params st st' :
  Forall (fun param =>
            test WHEN_PARAMETER_PATTERN (html.expression param) = false /\
            test ON_PARAMETER_PATTERN (html.expression param) = false) params ->
  parsePrimaryTriggers_loop bindingParser placeholder params st = Normal st' ->
  triggers st' = triggers st.
Proof.
  intros Hall. revert st. induction Hall as [| p params [Hw Ho] _ IH]; intros st.
  - simpl. by intros [= <-].
  - cbn [parsePrimaryTriggers_loop]. unfold parsePrimaryTrigger. rewrite Hw, Ho.
    destruct (test PREFETCH_WHEN_PATTERN (html.expression p)).
    { destruct (parseWhenTrigger _ _ _ _) as [r |]; simpl; [| done].
      intros Hrest. by apply IH in Hrest. }
    destruct (test PREFETCH_ON_PATTERN (html.expression p)).
    { destruct (parseOnTrigger _ _ _ _) as [r |]; simpl; [| done].
      intros Hrest. by apply IH in Hrest. }
    simpl. intros Hrest. by apply IH in Hrest.
Qed.

Lemma loop_prefetch_frame bindingParser placeholder params st st' :
  Forall (fun param =>
            test PREFETCH_WHEN_PATTERN (html.expression param) = false /\
            test PREFETCH_ON_PATTERN (html.expression param) = false) params ->
  parsePrimaryTriggers_loop bindingParser placeholder params st = Normal st' ->
  prefetchTriggers st' = prefetchTriggers st.
Proof.
  intros Hall. revert st. induction Hall as [| p params [Hw Ho] _ IH]; intros st.
  - simpl. by intros [= <-].
  - cbn [parsePrimaryTriggers_loop]. unfold parsePrimaryTrigger. rewrite Hw, Ho.
    destruct (test WHEN_PARAMETER_PATTERN (html.expression p)).
    { destruct (parseWhenTrigger _ _ _ _) as [r |]; simpl; [| done].
      intros Hrest. by apply IH in Hrest. }
    destruct (test ON_PARAMETER_PATTERN (html.expression p)).
    { destruct (parseOnTrigger _ _ _ _) as [r |]; simpl; [| done].
      intros Hrest. by apply IH in Hrest. }
    simpl. intros Hrest. by apply IH in Hrest.
Qed.

(** X14.  The two trigger sets are kept apart.  Whatever the trigger
    parsers do with the set they are handed, parameters none of which is a
    [when] or an [on] parameter leave the set of immediate triggers empty,
    and parameters none of which is a [prefetch when] or a [prefetch on]
    parameter leave the set of prefetch triggers empty. *)
Theorem trigger_sets_kept_apart bindingParser placeholder params errs
    (result : PrimaryTriggers Span Trigger) :
  parsePrimaryTriggers params bindingParser errs placeholder = Normal result ->
  (Forall (fun param =>
             test WHEN_PARAMETER_PATTERN (html.expression param) = false /\
             test ON_PARAMETER_PATTERN (html.expression param) = false) params ->
   triggers result = ∅) /\
  (Forall (fun param =>
             test PREFETCH_WHEN_PATTERN (html.expression param) = false /\
             test PREFETCH_ON_PATTERN (html.expression param) = false) params ->
   prefetchTriggers result = ∅).
Proof.
  unfold parsePrimaryTriggers. intros Hresult. split; intros Hall.
  - by rewrite (loop_immediate_frame _ _ _ _ _ Hall Hresult).
  - by rewrite (loop_prefetch_frame _ _ _ _ _ Hall Hresult).
Qed.

(** X15.  What a trigger parser throws is not caught: when the first
    parameter of the primary block is a [when] parameter, or an [on]
    parameter, on which its parser throws, [createDeferredBlock] throws the
    same, whatever the connected blocks are, and returns neither a node
    nor the diagnostics recorded so far. *)
Theorem trigger_exception_propagates ast (connectedBlocks : list (html.Block Span Node))
    visitor bindingParser param rest message :
  html.parameters ast = param :: rest ->
  (test WHEN_PARAMETER_PATTERN (html.expression param) = true /\
   (forall T E, parseWhenTrigger param bindingParser T E = Throw message)) \/
  (test WHEN_PARAMETER_PATTERN (html.expression param) = false /\
   test ON_PARAMETER_PATTERN (html.expression param) = true /\
   (forall T E placeholder, parseOnTrigger param T E placeholder = Throw message)) ->
  createDeferredBlock ast connectedBlocks visitor bindingParser = Throw message.
Proof.
  intros Hparams Hthrow. unfold createDeferredBlock, parsePrimaryTriggers.
  rewrite Hparams. cbn [parsePrimaryTriggers_loop]. unfold parsePrimaryTrigger.
  destruct Hthrow as [[Hw Hthrow] | (Hw & Ho & Hthrow)].
  - by rewrite Hw, Hthrow.
  - by rewrite Hw, Ho, Hthrow.
Qed.

(** X16.  What the visitor throws on the children of the primary block is
    not caught either: when the trigger parsers return,
    [createDeferredBlock] throws it, although the classifier turns the
    same exception into a diagnostic when it comes from the children of a
    connected block. *)
Theorem visitor_exception_on_primary_block ast
    (connectedBlocks : list (html.Block Span Node)) visitor bindingParser message :
  (forall param bp T E, exists r, parseWhenTrigger param bp T E = Normal r) ->
  (forall param T E ph, exists r, parseOnTrigger param T E ph = Normal r) ->
  visitAll visitor (html.children ast) (html.children ast) = Throw message ->
  createDeferredBlock ast connectedBlocks visitor bindingParser = Throw message.
Proof.
  intros Hwhen Hon Hvisit. unfold createDeferredBlock, parsePrimaryTriggers.
  edestruct parsePrimaryTriggers_loop_returns as [primary ->]; [done | done |].
  simpl. by rewrite Hvisit.
Qed.

Lemma loop_errors_appended bindingParser placeholder params st st' :
  (forall param bp T E T' E',
     parseWhenTrigger param bp T E = Normal (T', E') -> exists new, E' = E ++ new) ->
  (forall param T E ph T' E',
     parseOnTrigger param T E ph = Normal (T', E') -> exists new, E' = E ++ new) ->
  parsePrimaryTriggers_loop bindingParser placeholder params st = Normal st' ->
  exists new, triggerErrors st' = triggerErrors st ++ new.
Proof.
  intros Hwhen Hon. revert st.
  induction params as [| p params IH]; intros st.
  - simpl. intros [= <-]. exists []. by rewrite app_nil_r.
  - cbn [parsePrimaryTriggers_loop]. unfold parsePrimaryTrigger.
    assert (Hstep : forall st1,
              (exists new, triggerErrors st1 = triggerErrors st ++ new) ->
              parsePrimaryTriggers_loop bindingParser placeholder params st1 = Normal st' ->
              exists new, triggerErrors st' = triggerErrors st ++ new).
    { intros st1 [new1 H1] Hrest. apply IH in Hrest as [new2 H2].
      exists (new1 ++ new2). by rewrite H2, H1, app_assoc. }
    repeat match goal with
           | |- context [if test ?r ?e then _ else _] => destruct (test r e)
           end;
      try (destruct (parseWhenTrigger _ _ _ _) as [[T' E'] |] eqn:Hcall; simpl; [| done];
           apply Hstep; simpl; by eapply Hwhen);
      try (destruct (parseOnTrigger _ _ _ _) as [[T' E'] |] eqn:Hcall; simpl; [| done];
           apply Hstep; simpl; by eapply Hon).
    simpl. apply Hstep. simpl. unfold push. by eexists.
Qed.

(** X17.  How [createDeferredBlock] puts its parts together.  When it
    returns, the three connected blocks of the node are the slots of the
    classifier, run on the empty list of diagnostics; the children are
    what the visitor returns for the children of the primary block; the
    spans are those of the primary block; and, with trigger parsers that
    only append to the diagnostics, the diagnostics of the classifier come
    first in the list that is returned, before those of the triggers. *)
Theorem createDeferredBlock_assembles ast (connectedBlocks : list (html.Block Span Node))
    visitor bindingParser (node : t.DeferredBlock Span R3Node Trigger)
    (diagnostics : list (ParseError Span)) :
  (forall param bp T E T' E',
     parseWhenTrigger param bp T E = Normal (T', E') -> exists new, E' = E ++ new) ->
  (forall param T E ph T' E',
     parseOnTrigger param T E ph = Normal (T', E') -> exists new, E' = E ++ new) ->
  createDeferredBlock ast connectedBlocks visitor bindingParser =
    Normal (node, diagnostics) ->
  let connected := parseConnectedBlocks connectedBlocks [] visitor in
  t.placeholder node = placeholder connected /\
  t.loading node = loading connected /\
  t.error node = error connected /\
  visitAll visitor (html.children ast) (html.children ast) = Normal (t.children node) /\
  t.sourceSpan node = html.blockSourceSpan ast /\
  t.startSourceSpan node = html.startSourceSpan ast /\
  t.endSourceSpan node = html.endSourceSpan ast /\
  exists new, diagnostics = errors connected ++ new.
Proof.
  intros Hwhen Hon. unfold createDeferredBlock.
  destruct (parsePrimaryTriggers _ _ _ _) as [primary |] eqn:Hprimary; simpl; [| done].
  destruct (visitAll visitor _ _) as [visited |]; simpl; [| done].
  intros [= <- <-]. simpl. repeat (split; [done |]).
  unfold parsePrimaryTriggers in Hprimary.
  by apply (loop_errors_appended _ _ _ _ _ Hwhen Hon) in Hprimary.
Qed.

End DispatcherAsAWhole.

Section DispatchOrder.
Context {Span Node R3Node Visitor Trigger BindingParser : Type}.
Context {imports : Imports Span Node R3Node Visitor Trigger BindingParser}.
Implicit Types (param : html.BlockParameter Span) (bindingParser : BindingParser).
Implicit Types (placeholder : option (t.DeferredBlockPlaceholder Span R3Node)).
Implicit Types (st : PrimaryTriggers Span Trigger).

(** X18.  The order in which the dispatcher tries its four patterns does
    not matter, because no expression is matched by two of them: the
    parser and the set a parameter goes to are given by the one pattern
    that matches it.  A [prefetch when] parameter goes to the parser of
    conditional triggers with the prefetch set and a [prefetch on]
    parameter to the parser of declarative triggers with the prefetch set,
    without a look at the patterns tried before. *)
Theorem dispatch_by_matching_pattern bindingParser placeholder param st :
  (test ON_PARAMETER_PATTERN (html.expression param) = true ->
   parsePrimaryTrigger bindingParser placeholder param st =
     (r ← parseOnTrigger param (triggers st) (triggerErrors st) placeholder;
      Normal {| triggers := r.1; prefetchTriggers := prefetchTriggers st;
                triggerErrors := r.2 |})) /\
  (test PREFETCH_WHEN_PATTERN (html.expression param) = true ->
   parsePrimaryTrigger bindingParser placeholder param st =
     (r ← parseWhenTrigger param bindingParser (prefetchTriggers st) (triggerErrors st);
      Normal {| triggers := triggers st; prefetchTriggers := r.1;
                triggerErrors := r.2 |})) /\
  (test PREFETCH_ON_PATTERN (html.expression param) = true ->
   parsePrimaryTrigger bindingParser placeholder param st =
     (r ← parseOnTrigger param (prefetchTriggers st) (triggerErrors st) placeholder;
      Normal {| triggers := triggers st; prefetchTriggers := r.1;
                triggerErrors := r.2 |})).
Proof.
  pose proof (trigger_patterns_exclusive (html.expression param)) as Hone.
  unfold triggerPatterns in Hone. cbn [List.filter] in Hone.
  split; [| split]; intros Hmatch; rewrite Hmatch in Hone;
    destruct (test WHEN_PARAMETER_PATTERN (html.expression param)) eqn:Hw;
    destruct (test ON_PARAMETER_PATTERN (html.expression param)) eqn:Ho;
    destruct (test PREFETCH_WHEN_PATTERN (html.expression param)) eqn:Hpw;
    destruct (test PREFETCH_ON_PATTERN (html.expression param)) eqn:Hpo;
    simpl in Hone; try lia; try discriminate.
  - by apply dispatch_on.
  - by apply dispatch_prefetch_when.
  - by apply dispatch_prefetch_on.
Qed.

End DispatchOrder.

(** ** The further properties at work *)

(** X4 on a placeholder, a block named [unknown-block] and a loading
    block. *)
Lemma blocks_after_unrecognized_ignored_witness :
  parseConnectedBlocks (imports := spec_imports)
    [block "placeholder" ["minimum 100ms"] 10;
     block "unknown-block" [] 20;
     block "loading" [] 30] [] tt =
  parseConnectedBlocks (imports := spec_imports)
    [block "placeholder" ["minimum 100ms"] 10;
     block "unknown-block" [] 20] [] tt.
Proof.
  exact (blocks_after_unrecognized_ignored (imports := spec_imports) tt
           [block "placeholder" ["minimum 100ms"] 10]
           (block "unknown-block" [] 20)
           [block "loading" [] 30] [] eq_refl).
Defined.

(** X7 on a loading block with [minimum 2ms] and [after 3ms]. *)
Lemma loading_block_accepted_shape_witness :
  countMatching AFTER_PARAMETER_PATTERN
    (html.parameters (block "loading" ["minimum 2ms"; "after 3ms"] 30)) = 1 /\
  countMatching MINIMUM_PARAMETER_PATTERN
    (html.parameters (block "loading" ["minimum 2ms"; "after 3ms"] 30)) = 1 /\
  length (html.parameters (block "loading" ["minimum 2ms"; "after 3ms"] 30)) <= 2.
Proof.
  exact (proj2 (loading_block_accepted_shape (imports := spec_imports)
                  (block "loading" ["minimum 2ms"; "after 3ms"] 30) tt
                  (t.Build_DeferredBlockLoading [str "loading"] (Some 3%Z) (Some 2%Z)
                     30 30 30)
                  eq_refl)).
Defined.

(** X8 on [after 3ms] and [minimum 2ms]. *)
Lemma loading_parameters_commute_witness :
  parseLoadingParameters (imports := spec_imports)
    [{| html.expression := str "after 3ms"; html.sourceSpan := 1 |};
     {| html.expression := str "minimum 2ms"; html.sourceSpan := 2 |}] None None =
    Normal (Some 3%Z, Some 2%Z) /\
  parseLoadingParameters (imports := spec_imports)
    [{| html.expression := str "minimum 2ms"; html.sourceSpan := 2 |};
     {| html.expression := str "after 3ms"; html.sourceSpan := 1 |}] None None =
    Normal (Some 3%Z, Some 2%Z).
Proof.
  exact (loading_parameters_commute (imports := spec_imports)
           {| html.expression := str "after 3ms"; html.sourceSpan := 1 |}
           {| html.expression := str "minimum 2ms"; html.sourceSpan := 2 |}
           6%Z 8%Z 3%Z 2%Z eq_refl eq_refl eq_refl eq_refl eq_refl eq_refl).
Defined.

(** X9 on a placeholder block with the parameter [minimum soon], whose
    time does not parse. *)
Lemma placeholder_failure_messages_witness :
  parsePlaceholderBlock (imports := spec_imports)
    (block "placeholder" ["minimum soon"] 10) tt =
    Throw (str "Could not parse time value of parameter " ++
           dquote ++ str "minimum" ++ dquote) /\
  (str "Could not parse time value of parameter " ++ dquote ++ str "minimum" ++ dquote =
     str "@placeholder block can only have one " ++
     dquote ++ str "minimum" ++ dquote ++ str " parameter" \/
   str "Could not parse time value of parameter " ++ dquote ++ str "minimum" ++ dquote =
     str "Could not parse time value of parameter " ++ dquote ++ str "minimum" ++ dquote \/
   exists param,
     param ∈ html.parameters (block "placeholder" ["minimum soon"] 10) /\
     test MINIMUM_PARAMETER_PATTERN (html.expression param) = false /\
     str "Could not parse time value of parameter " ++ dquote ++ str "minimum" ++ dquote =
       str "Unrecognized parameter in @placeholder block: " ++
       dquote ++ html.expression param ++ dquote).
Proof.
  split; [reflexivity |].
  apply (placeholder_failure_messages (imports := spec_imports)
           (block "placeholder" ["minimum soon"] 10) tt).
  - intros value. eexists. reflexivity.
  - intros value. eexists. reflexivity.
  - intros nodes context. eexists. reflexivity.
  - reflexivity.
Defined.

(** X10 on a loading block with the parameters [after 3ms] and
    [after 4ms]. *)
Lemma loading_failure_messages_witness :
  parseLoadingBlock (imports := spec_imports)
    (block "loading" ["after 3ms"; "after 4ms"] 10) tt =
    Throw (str "@loading block can only have one " ++
           dquote ++ str "after" ++ dquote ++ str " parameter") /\
  ((exists keyword,
      keyword ∈ [str "after"; str "minimum"] /\
      (str "@loading block can only have one " ++
       dquote ++ str "after" ++ dquote ++ str " parameter" =
         str "@loading block can only have one " ++
         dquote ++ keyword ++ dquote ++ str " parameter" \/
       str "@loading block can only have one " ++
       dquote ++ str "after" ++ dquote ++ str " parameter" =
         str "Could not parse time value of parameter " ++
         dquote ++ keyword ++ dquote)) \/
   exists param,
     param ∈ html.parameters (block "loading" ["after 3ms"; "after 4ms"] 10) /\
     test AFTER_PARAMETER_PATTERN (html.expression param) = false /\
     test MINIMUM_PARAMETER_PATTERN (html.expression param) = false /\
     str "@loading block can only have one " ++
     dquote ++ str "after" ++ dquote ++ str " parameter" =
       str "Unrecognized parameter in @loading block: " ++
       dquote ++ html.expression param ++ dquote).
Proof.
  split; [reflexivity |].
  apply (loading_failure_messages (imports := spec_imports)
           (block "loading" ["after 3ms"; "after 4ms"] 10) tt).
  - intros value. eexists. reflexivity.
  - intros value. eexists. reflexivity.
  - intros nodes context. eexists. reflexivity.
  - reflexivity.
Defined.

(** X11 on a loading block without parameters and a visitor that throws
    [Unexpected node]. *)
Lemma visitor_exception_in_connected_block_witness :
  parseConnectedBlocks (imports := faulty_imports None)
    [block "loading" [] 10] [] (Some (str "Unexpected node")) =
  {| placeholder := None; loading := None; error := None;
     errors := [Build_ParseError 10 (str "Unexpected node")] |}.
Proof.
  exact (visitor_exception_in_connected_block (imports := faulty_imports None)
           (Some (str "Unexpected node")) (block "loading" [] 10) loadingKind
           (str "Unexpected node") [] eq_refl eq_refl eq_refl).
Defined.

(** X12 on the bare keyword [when]. *)
Lemma no_white_space_no_keyword_witness :
  Forall (fun pattern => test pattern (str "when") = false)
    (triggerPatterns ++ [MINIMUM_PARAMETER_PATTERN; AFTER_PARAMETER_PATTERN]).
Proof.
  apply no_white_space_no_keyword.
  repeat first [apply Forall_nil_2 | apply Forall_cons_2; [reflexivity |]].
Defined.

(** X13 on the parameters [unknown foo] and [when]. *)
Lemma all_triggers_unrecognized_witness :
  parsePrimaryTriggers (imports := spec_imports)
    [{| html.expression := str "unknown foo"; html.sourceSpan := 1 |};
     {| html.expression := str "when"; html.sourceSpan := 2 |}] tt [] None =
  Normal {| triggers := ∅; prefetchTriggers := ∅;
            triggerErrors :=
              [Build_ParseError 1 (str "Unrecognized trigger");
               Build_ParseError 2 (str "Unrecognized trigger")] |}.
Proof.
  apply (all_triggers_unrecognized (imports := spec_imports) tt None
           [{| html.expression := str "unknown foo"; html.sourceSpan := 1 |};
            {| html.expression := str "when"; html.sourceSpan := 2 |}] []).
  repeat first [apply Forall_nil_2 | apply Forall_cons_2; [reflexivity |]
               | apply Forall_cons_2 ].
Defined.

(** X14 on the parameters [prefetch when y] and [prefetch on hover]. *)
Lemma trigger_sets_kept_apart_witness :
  parsePrimaryTriggers (imports := spec_imports)
    [{| html.expression := str "prefetch when y"; html.sourceSpan := 1 |};
     {| html.expression := str "prefetch on hover"; html.sourceSpan := 2 |}] tt [] None =
    Normal {| triggers := ∅;
              prefetchTriggers :=
                <[str "hover" := str "prefetch on hover"]>
                  {[str "when" := str "prefetch when y"]};
              triggerErrors := [] |} /\
  triggers
    {| triggers := ∅;
       prefetchTriggers :=
         <[str "hover" := str "prefetch on hover"]>
           ({[str "when" := str "prefetch when y"]} : gmap jsstring jsstring);
       triggerErrors := ([] : list (ParseError nat)) |} = ∅.
Proof.
  split; [reflexivity |].
  apply (trigger_sets_kept_apart (imports := spec_imports) tt None
           [{| html.expression := str "prefetch when y"; html.sourceSpan := 1 |};
            {| html.expression := str "prefetch on hover"; html.sourceSpan := 2 |}] []).
  - reflexivity.
  - repeat first [apply Forall_nil_2 | apply Forall_cons_2; [split; reflexivity |]].
Defined.

(** X15 on the parameter [when x], with a parser of conditional triggers
    that throws [Parser Error], and a placeholder block whose diagnostics
    are lost. *)
Lemma trigger_exception_propagates_witness :
  createDeferredBlock (imports := faulty_imports (Some (str "Parser Error")))
    (block "defer" ["when x"] 0) [block "placeholder" ["unknown"] 10] None tt =
  Throw (str "Parser Error").
Proof.
  apply (trigger_exception_propagates
           (imports := faulty_imports (Some (str "Parser Error")))
           (block "defer" ["when x"] 0) [block "placeholder" ["unknown"] 10] None tt
           {| html.expression := str "when x"; html.sourceSpan := 1 |} []
           (str "Parser Error")).
  - reflexivity.
  - left. split; [reflexivity |]. intros T E. reflexivity.
Defined.

(** X16 on a primary block and a visitor that throws [Unexpected node]. *)
Lemma visitor_exception_on_primary_block_witness :
  createDeferredBlock (imports := faulty_imports None)
    (block "defer" ["on idle"] 0) [block "error" [] 10]
    (Some (str "Unexpected node")) tt =
  Throw (str "Unexpected node").
Proof.
  apply (visitor_exception_on_primary_block (imports := faulty_imports None)).
  - intros param bp T E. eexists. reflexivity.
  - intros param T E ph. eexists. reflexivity.
  - reflexivity.
Defined.

(** X17 on a primary block with an unrecognized trigger, an error block
    with a parameter and a valid placeholder block. *)
Lemma createDeferredBlock_assembles_witness :
  exists new,
    [Build_ParseError 10 (str "@error block cannot have parameters");
     Build_ParseError 1 (str "Unrecognized trigger")] =
    errors
      (parseConnectedBlocks (imports := spec_imports)
         [block "error" ["minimum 10ms"] 10;
          block "placeholder" ["minimum 100ms"] 20] [] tt) ++ new.
Proof.
  refine (proj2 (proj2 (proj2 (proj2 (proj2 (proj2 (proj2
    (createDeferredBlock_assembles (imports := spec_imports)
       (block "defer" ["unknown foo"] 0)
       [block "error" ["minimum 10ms"] 10;
        block "placeholder" ["minimum 100ms"] 20] tt tt
       (t.Build_DeferredBlock [str "defer"] ∅ ∅
          (Some (t.Build_DeferredBlockPlaceholder [str "placeholder"] (Some 100%Z)
                   20 20 20))
          None None 0 0 0)
       [Build_ParseError 10 (str "@error block cannot have parameters");
        Build_ParseError 1 (str "Unrecognized trigger")]
       _ _ eq_refl)))))))).
  - intros param bp T E T' E'. cbn [parseWhenTrigger spec_imports].
    unfold register_trigger. destruct (T !! str "when"); intros [= <- <-].
    + by eexists.
    + exists []. by rewrite app_nil_r.
  - intros param T E ph T' E'. cbn [parseOnTrigger spec_imports].
    unfold register_trigger. destruct (T !! _); intros [= <- <-].
    + by eexists.
    + exists []. by rewrite app_nil_r.
Defined.

(** X18 on the parameter [prefetch on hover]. *)
Lemma dispatch_by_matching_pattern_witness :
  parsePrimaryTrigger (imports := spec_imports) tt None
    {| html.expression := str "prefetch on hover"; html.sourceSpan := 1 |}
    {| triggers := ∅; prefetchTriggers := ∅; triggerErrors := [] |} =
  Normal {| triggers := ∅;
            prefetchTriggers := {[str "hover" := str "prefetch on hover"]};
            triggerErrors := [] |}.
Proof.
  exact (proj2 (proj2 (dispatch_by_matching_pattern (imports := spec_imports) tt None
                         {| html.expression := str "prefetch on hover";
                            html.sourceSpan := 1 |}
                         {| triggers := ∅; prefetchTriggers := ∅; triggerErrors := [] |}))
           eq_refl).
Defined.

(** ** The entry point never throws on account of a connected block *)

Section EntryPoint.
Context {Span Node R3Node Visitor Trigger BindingParser : Type}.
Context {imports : Imports Span Node R3Node Visitor Trigger BindingParser}.
Implicit Types (ast block : html.Block Span Node) (visitor : Visitor).
Implicit Types (blocks before after : list (html.Block Span Node)).
Implicit Types (st : ConnectedBlocks Span R3Node) (k : Kind).

Lemma round_recognized_continues visitor block st :
  isConnectedDeferLoopBlock (html.name block) = true ->
  (parseConnectedBlock visitor block st).1 = Continue.
Proof.
  intros Hrec. destruct (recognized_kind _ Hrec) as [k Hn].
  destruct (slot st k) as [node |] eqn:Hs.
  - by rewrite (round_duplicate visitor block st k node).
  - destruct (parseKind k block visitor) as [node | message] eqn:Hp.
    + by destruct (round_store visitor block st k node) as (st1 & -> & _).
    + by rewrite (round_throw visitor block st k message).
Qed.

(** Blocks of recognized names do not end the loop. *)
Lemma loop_app_recognized visitor before after st :
  Forall (fun block => isConnectedDeferLoopBlock (html.name block) = true) before ->
  parseConnectedBlocks_loop visitor (before ++ after) st =
  parseConnectedBlocks_loop visitor after (parseConnectedBlocks_loop visitor before st).
Proof.
  intros Hall. revert st. induction Hall as [| b before Hb _ IH]; intros st; [done |].
  simpl. pose proof (round_recognized_continues visitor b st Hb) as Hc.
  destruct (parseConnectedBlock visitor b st) as [signal st1]. simpl in Hc.
  rewrite Hc. apply IH.
Qed.

Lemma parsedBlocks_recognized before :
  Forall (fun block => isConnectedDeferLoopBlock (html.name block) = true) before ->
  parsedBlocks before = before.
Proof.
  induction 1 as [| b before Hb _ IH]; [done |]. simpl. by rewrite Hb, IH.
Qed.

Lemma omap_none visitor k blocks :
  Forall (fun block => accepted visitor k block = None) blocks ->
  omap (accepted visitor k) blocks = [].
Proof.
  induction 1 as [| b blocks Hb _ IH]; [done |].
  cbn [omap list_omap]. by rewrite Hb.
Qed.

(** The loop only appends to the diagnostics. *)
Lemma loop_errors_grow visitor blocks st :
  exists new, errors (parseConnectedBlocks_loop visitor blocks st) = errors st ++ new.
Proof.
  exists (errors
            (parseConnectedBlocks_loop visitor blocks
               {| placeholder := placeholder st; loading := loading st;
                  error := error st; errors := [] |})).
  replace (parseConnectedBlocks_loop visitor blocks st)
    with (parseConnectedBlocks_loop visitor blocks
            (prependErrors (errors st)
               {| placeholder := placeholder st; loading := loading st;
                  error := error st; errors := [] |})).
  - by rewrite loop_prependErrors.
  - f_equal. unfold prependErrors. simpl. rewrite app_nil_r. by destruct st.
Qed.

(** C8.  When the visitor and the two trigger parsers do not throw,
    [createDeferredBlock] returns a node and a list of diagnostics,
    whatever the blocks are and whatever the sub-parsers do.  The connected
    blocks of the node are the slots of the classifier, and the list is
    what the dispatcher makes of the diagnostics of the classifier.  Every
    exception of a sub-parser is caught by the classifier and becomes a
    diagnostic at the start of its block: for a connected block that the
    loop reaches with the slot of its kind empty, so that its sub-parser is
    called, and whose sub-parser throws, the loop goes on with the next
    sibling from the state with that diagnostic appended, the diagnostic
    is among those of the classifier, and, with trigger parsers that only
    append to the diagnostics, among those [createDeferredBlock]
    returns. *)
Theorem createDeferredBlock_returns ast (connectedBlocks : list (html.Block Span Node))
    visitor (bindingParser : BindingParser) :
  (forall nodes context, exists visited, visitAll visitor nodes context = Normal visited) ->
  (forall param bp T E, exists r, parseWhenTrigger param bp T E = Normal r) ->
  (forall param T E ph, exists r, parseOnTrigger param T E ph = Normal r) ->
  exists (node : t.DeferredBlock Span R3Node Trigger) (diagnostics : list (ParseError Span)),
    createDeferredBlock ast connectedBlocks visitor bindingParser =
      Normal (node, diagnostics) /\
    (let connected := parseConnectedBlocks connectedBlocks [] visitor in
     t.placeholder node = placeholder connected /\
     t.loading node = loading connected /\
     t.error node = error connected /\
     parsePrimaryTriggers (html.parameters ast) bindingParser
       (errors connected) (placeholder connected) =
       Normal {| triggers := t.triggers node;
                 prefetchTriggers := t.prefetchTriggers node;
                 triggerErrors := diagnostics |}) /\
    (forall before block after k message,
       connectedBlocks = before ++ block :: after ->
       Forall (fun b => isConnectedDeferLoopBlock (html.name b) = true) before ->
       Forall (fun b => accepted visitor k b = None) before ->
       html.name block = kindName k ->
       parseKind k block visitor = Throw message ->
       let diagnostic := Build_ParseError (html.startSourceSpan block) message in
       parseConnectedBlocks connectedBlocks [] visitor =
         parseConnectedBlocks_loop visitor after
           (pushError (parseConnectedBlocks before [] visitor) diagnostic) /\
       diagnostic ∈ errors (parseConnectedBlocks connectedBlocks [] visitor) /\
       ((forall param bp T E T' E',
           parseWhenTrigger param bp T E = Normal (T', E') -> exists new, E' = E ++ new) ->
        (forall param T E ph T' E',
           parseOnTrigger param T E ph = Normal (T', E') -> exists new, E' = E ++ new) ->
        diagnostic ∈ diagnostics)).
Proof.
  intros Hvisit Hwhen Hon.
  pose (connected := parseConnectedBlocks connectedBlocks [] visitor).
  destruct (parsePrimaryTriggers_loop_returns bindingParser (placeholder connected)
              (html.parameters ast)
              {| triggers := ∅; prefetchTriggers := ∅;
                 triggerErrors := errors connected |} Hwhen Hon)
    as [primary Hprimary].
  destruct (Hvisit (html.children ast) (html.children ast)) as [visited Hvisited].
  exists (t.Build_DeferredBlock visited (triggers primary) (prefetchTriggers primary)
            (placeholder connected) (loading connected) (error connected)
            (html.blockSourceSpan ast) (html.startSourceSpan ast)
            (html.endSourceSpan ast)),
    (triggerErrors primary).
  split; [| split].
  - unfold createDeferredBlock, parsePrimaryTriggers. fold connected.
    rewrite Hprimary. simpl. by rewrite Hvisited.
  - simpl. fold connected. repeat (split; [done |]).
    unfold parsePrimaryTriggers. rewrite Hprimary. by destruct primary.
  - intros before block after k message -> Hrec Hnone Hname Hthrow diagnostic.
    assert (Hloop : parseConnectedBlocks (before ++ block :: after) [] visitor =
                    parseConnectedBlocks_loop visitor after
                      (pushError (parseConnectedBlocks before [] visitor) diagnostic)).
    { unfold parseConnectedBlocks. rewrite loop_app_recognized by done.
      cbn [parseConnectedBlocks_loop].
      rewrite (round_throw visitor block _ k message); [done | done | | done].
      rewrite loop_slot, parsedBlocks_recognized, omap_none by done.
      by destruct k. }
    assert (Hin : diagnostic ∈
                  errors (parseConnectedBlocks (before ++ block :: after) [] visitor)).
    { rewrite Hloop.
      destruct (loop_errors_grow visitor after
                  (pushError (parseConnectedBlocks before [] visitor) diagnostic))
        as [new ->].
      simpl. unfold push. rewrite !elem_of_app, elem_of_cons. auto. }
    split; [done |]. split; [done |].
    intros Hwhen' Hon'.
    destruct (loop_errors_appended _ _ _ _ _ Hwhen' Hon' Hprimary) as [new ->].
    simpl. apply elem_of_app. by left.
Qed.

End EntryPoint.

(** C8 on a template whose placeholder and error block are rejected by
    their sub-parsers: the diagnostic of the error block is among those
    that are returned. *)
Lemma createDeferredBlock_returns_witness :
  exists node diagnostics,
    createDeferredBlock (imports := spec_imports)
      (block "defer" ["when x > 0"; "prefetch on hover"; "unknown foo"] 0)
      [block "placeholder" ["minimum 100ms"; "minimum 100ms"] 10;
       block "loading" ["after 3ms"] 20;
       block "error" ["minimum 10ms"] 30] tt tt =
    Normal (node, diagnostics) /\
    Build_ParseError 30 (str "@error block cannot have parameters") ∈ diagnostics.
Proof.
  destruct (createDeferredBlock_returns (imports := spec_imports)
              (block "defer" ["when x > 0"; "prefetch on hover"; "unknown foo"] 0)
              [block "placeholder" ["minimum 100ms"; "minimum 100ms"] 10;
               block "loading" ["after 3ms"] 20;
               block "error" ["minimum 10ms"] 30] tt tt)
    as (node & diagnostics & Hreturns & _ & Hcaught).
  - intros nodes context. eexists. reflexivity.
  - intros param bp T E. eexists. reflexivity.
  - intros param T E ph. eexists. reflexivity.
  - exists node, diagnostics. split; [exact Hreturns |].
    destruct (Hcaught
                [block "placeholder" ["minimum 100ms"; "minimum 100ms"] 10;
                 block "loading" ["after 3ms"] 20]
                (block "error" ["minimum 10ms"] 30) [] errorKind
                (str "@error block cannot have parameters"))
      as (_ & _ & Hreturned).
    + reflexivity.
    + repeat first [apply Forall_nil_2 | apply Forall_cons_2; [reflexivity |]].
    + repeat first [apply Forall_nil_2 | apply Forall_cons_2; [reflexivity |]].
    + reflexivity.
    + reflexivity.
    + apply Hreturned.
      * intros param bp T E T' E'. cbn [parseWhenTrigger spec_imports].
        unfold register_trigger. destruct (T !! str "when"); intros [= <- <-].
        -- by eexists.
        -- exists []. by rewrite app_nil_r.
      * intros param T E ph T' E'. cbn [parseOnTrigger spec_imports].
        unfold register_trigger. destruct (T !! _); intros [= <- <-].
        -- by eexists.
        -- exists []. by rewrite app_nil_r.
Defined.
